(** * OS_archivator: a flat directory archiver

    Shallow embedding of [src/archivator.cpp] and the properties of its three
    operations [archiveFiles], [unarchiveFiles] and [checkArchive], checked
    against the specification of the archiver, and of [main], which
    dispatches on the command line.

    Modelling conventions.
    - A [char] is a [byte]; a [std::string] is a [string]; a [char*] buffer
      is a [list byte].
    - [std::uintmax_t] is a 64-bit unsigned integer, written to and read
      from the archive through its object representation, taken here to be
      little-endian (x86-64).
    - [std::ifstream] / [std::ofstream] are records that carry the unread or
      written bytes together with the [eofbit] / [failbit] state the
      standard library keeps, because the loops of the program test them.
    - Reading memory that was never written (an uninitialised or overrun
      [new char[n]] buffer handed to [strcmp], an unassigned [size] field)
      has no defined result: the model answers [Undefined].  The bytes of
      such a buffer that are only copied to a file are given by a function
      [junk].  An uncaught [filesystem_error] is [Threw].  [unarchive_loop]
      and [check_loop] take every [new char[n]] to succeed;
      [unarchive_loop_mem] is the extraction loop with that allocation, and
      the [std::bad_alloc] it can throw, made explicit.
    - The source folder is the sequence of entries that
      [fs::recursive_directory_iterator] yields; it exists, can be
      traversed, is not modified while the program runs, and does not
      contain the archive file itself.  A path [folder + "/" + name] is
      resolved among the entries directly inside the folder.
    - The target folder of an extraction can be created; it is the map from
      the names directly inside it to their content.
    - Resolving [folder + "/" + name] by the name alone is what the file
      system does for a [plain_name]: one without a path separator that is
      neither ["."] nor [".."].  The names of a scan are plain; statements
      about archives of any origin ask for plain names. *)

From Stdlib Require Import NArith ZArith Strings.Byte.
From stdpp Require Import gmap strings list fin_maps.

(** ** Outcomes of a run *)

Inductive outcome (A : Type) : Type :=
| Ret (a : A)      (* the function returns normally *)
| Threw            (* an exception escapes ([fs::file_size] on a non-file) *)
| Undefined        (* the run reads indeterminate or out-of-bounds memory *)
| OutOfFuel.       (* the loop bound of the model was too small *)
Arguments Ret {A} a.
Arguments Threw {A}.
Arguments Undefined {A}.
Arguments OutOfFuel {A}.

(** What the program prints and which files it opens for writing. *)
Inductive event : Type :=
| Cout (msg : string)
| Cerr (msg : string)
| OpenForWrite.     (* [std::ofstream archive(archiveName, binary)]: create or truncate *)

(** ** Bytes and the 8-byte size field *)

Module Wire.

Definition is_nul (b : byte) : bool := Byte.eqb b x00.

Definition byte_of_N (n : N) : byte :=
  match Byte.of_N (n mod 256) with Some b => b | None => x00 end.

(** [sizeof(std::uintmax_t)] *)
Definition sizeof_uintmax : nat := 8.

(** The first [k] bytes of the little-endian representation of [n]. *)
Fixpoint le_bytes (k : nat) (n : N) : list byte :=
  match k with
  | O => []
  | S k' => byte_of_N n :: le_bytes k' (n / 256)
  end.

Fixpoint le_value (l : list byte) : N :=
  match l with
  | [] => 0
  | b :: r => Byte.to_N b + 256 * le_value r
  end.

(** Scan up to the delimiter ['\0'].  [Some rest] when the delimiter was
    found (it is extracted and dropped), [None] when the input ended
    first. *)
Fixpoint split_at_nul (l : list byte) : list byte * option (list byte) :=
  match l with
  | [] => ([], None)
  | b :: r =>
      if is_nul b then ([], Some r)
      else let '(s, rest) := split_at_nul r in (b :: s, rest)
  end.

(** [strcmp(a, b) == 0] on two heap buffers whose allocations hold exactly
    the bytes [a] and [b].  The scan stops at the first difference or at
    the first ['\0']; leaving either allocation first is an out-of-bounds
    read, [None]. *)
Fixpoint strcmp_eq (a b : list byte) : option bool :=
  match a, b with
  | x :: a', y :: b' =>
      if Byte.eqb x y then (if is_nul x then Some true else strcmp_eq a' b')
      else Some false
  | _, _ => None
  end.

End Wire.
Import Wire.

(** ** Streams *)

Module Stream.

Record ifstream : Type := {
  in_open : bool;
  in_rest : list byte;       (* bytes not yet extracted *)
  in_eofbit : bool;
  in_failbit : bool
}.

(** [std::ifstream f(path, binary)] on a file that can be opened. *)
Definition ifstream_of (data : list byte) : ifstream :=
  {| in_open := true; in_rest := data; in_eofbit := false; in_failbit := false |}.

(** The same constructor when the open fails: [failbit] is set. *)
Definition ifstream_closed : ifstream :=
  {| in_open := false; in_rest := []; in_eofbit := false; in_failbit := true |}.

Definition in_good (s : ifstream) : bool := negb (in_eofbit s) && negb (in_failbit s).

Definition in_setfail (s : ifstream) : ifstream :=
  {| in_open := in_open s; in_rest := in_rest s;
     in_eofbit := in_eofbit s; in_failbit := true |}.

(** [std::getline(s, str, '\0')] into a freshly constructed [str].  A
    stream that is not good only gets [failbit]; otherwise characters are
    extracted up to the delimiter or the end of input, which sets
    [eofbit], and [failbit] too when nothing at all was extracted. *)
Definition getline (s : ifstream) : string * ifstream :=
  if in_good s then
    match split_at_nul (in_rest s) with
    | (str, Some rest) =>
        (String.string_of_list_byte str,
         {| in_open := in_open s; in_rest := rest;
            in_eofbit := false; in_failbit := false |})
    | (str, None) =>
        (String.string_of_list_byte str,
         {| in_open := in_open s; in_rest := [];
            in_eofbit := true;
            in_failbit := match str with [] => true | _ => false end |})
    end
  else (EmptyString, in_setfail s).

(** [s.read(buf, n)]: the bytes stored into [buf] (fewer than [n] when the
    input ends first, which sets [eofbit] and [failbit]). *)
Definition read (n : nat) (s : ifstream) : list byte * ifstream :=
  if in_good s then
    if (n <=? length (in_rest s))%nat then
      (take n (in_rest s),
       {| in_open := in_open s; in_rest := drop n (in_rest s);
          in_eofbit := false; in_failbit := false |})
    else
      (in_rest s,
       {| in_open := in_open s; in_rest := [];
          in_eofbit := true; in_failbit := true |})
  else ([], in_setfail s).

(** [s.read(reinterpret_cast<char*>(&size), sizeof(std::uintmax_t))] on an
    unassigned [size]: [None] when fewer than 8 bytes arrived, so that
    [size] stays (partly) indeterminate. *)
Definition read_uintmax (s : ifstream) : option N * ifstream :=
  let '(bs, s') := read sizeof_uintmax s in
  ((if (length bs =? sizeof_uintmax)%nat then Some (le_value bs) else None), s').

Record ofstream : Type := {
  out_bytes : list byte;     (* bytes written so far *)
  out_failbit : bool
}.

Definition ofstream_new : ofstream := {| out_bytes := []; out_failbit := false |}.

(** [s << str], [s << '\0'] and [s.write(p, n)]: nothing is written once
    the stream has failed. *)
Definition put (bs : list byte) (s : ofstream) : ofstream :=
  if out_failbit s then s
  else {| out_bytes := out_bytes s ++ bs; out_failbit := false |}.

(** [s << in.rdbuf()] copies the whole input; when no character is
    inserted the standard library sets [failbit] on [s]. *)
Definition put_rdbuf (data : list byte) (s : ofstream) : ofstream :=
  if out_failbit s then s
  else match data with
       | [] => {| out_bytes := out_bytes s; out_failbit := true |}
       | _ => {| out_bytes := out_bytes s ++ data; out_failbit := false |}
       end.

End Stream.
Import Stream.

(** ** The file system *)

Inductive kind : Type :=
| Regular (data : list byte) (readable : bool)   (* [fs::is_regular_file] holds *)
| Directory
| Special.                                        (* exists, neither file nor directory *)

(** One entry of the source folder: the directories between the folder and
    the entry, and the entry's own name. *)
Record entry : Type := {
  e_dir : list string;
  e_name : string;
  e_kind : kind
}.

Definition e_path (e : entry) : list string * string := (e_dir e, e_name e).

Definition is_regular_file (e : entry) : bool :=
  match e_kind e with Regular _ _ => true | _ => false end.

(** The entry found at a path, if any. *)
Fixpoint lookup_path (p : list string * string) (D : list entry) : option kind :=
  match D with
  | [] => None
  | e :: D' => if bool_decide (e_path e = p) then Some (e_kind e) else lookup_path p D'
  end.

(** [fs::file_size]: throws on anything that is not a regular file. *)
Definition file_size (k : kind) : option N :=
  match k with
  | Regular data _ => Some (N.of_nat (length data))
  | _ => None
  end.

(** [std::ifstream f(path, binary)] on a folder path. *)
Definition open_in (k : option kind) : ifstream :=
  match k with
  | Some (Regular data true) => ifstream_of data
  | _ => ifstream_closed
  end.

(** The archive path: its content when the file exists, and whether it can
    be opened for reading and for writing. *)
Record afile : Type := {
  a_content : option (list byte);
  a_readable : bool;
  a_writable : bool
}.

Definition open_archive (A : afile) : ifstream :=
  match a_content A with
  | Some data => if a_readable A then ifstream_of data else ifstream_closed
  | None => ifstream_closed
  end.

(** The target folder of an extraction: the files directly inside it, and
    the names for which [std::ofstream] fails to create a file. *)
Record target : Type := {
  t_files : gmap string (list byte);
  t_can_create : string → bool
}.

(** ** The program *)

Record FileInfo : Type := {
  filename : string;
  path : list string * string;
  size : option N              (* [None]: never assigned *)
}.

Definition msg_skip : string :=
  "Archive already exists and contains identical files. Skipping archiving."%string.
Definition msg_no_write : string := "Failed to open archive for writing."%string.
Definition msg_no_read : string := "Failed to open archive for reading."%string.
Definition msg_archived : string := "Archiving complete."%string.
Definition msg_unarchived : string := "Unarchiving complete."%string.
Definition msg_open_failed (name : string) : string := ("Failed to open file: " ++ name)%string.
Definition msg_create_failed (name : string) : string := ("Failed to create file: " ++ name)%string.

(** *** checkArchive *)

(** [int] arithmetic of the file counter. *)
Definition INT_MAX : Z := 2147483647.

Definition to_int (z : Z) : Z := (z + 2 ^ 31) `mod` 2 ^ 32 - 2 ^ 31.

(** The loop of lines 161-166; signed overflow of [counterOfFiles++] is
    undefined. *)
Fixpoint count_files (D : list entry) (counterOfFiles : Z) : option Z :=
  match D with
  | [] => Some counterOfFiles
  | e :: D' =>
      if is_regular_file e then
        if (counterOfFiles <? INT_MAX)%Z then count_files D' (counterOfFiles + 1)%Z
        else None
      else count_files D' counterOfFiles
  end.

(** The loop of lines 127-157.  [Ret None]: a [return false] inside the
    loop; [Ret (Some archivedFiles)]: the loop was left. *)
Fixpoint check_loop (fuel : nat) (archive : ifstream) (D : list entry)
    (archivedFiles : list FileInfo) : outcome (option (list FileInfo)) :=
  match fuel with
  | O => OutOfFuel
  | S fuel' =>
      if in_eofbit archive then Ret (Some archivedFiles)
      else
        let '(name, archive) := getline archive in
        if bool_decide (name = EmptyString) then Ret (Some archivedFiles)
        else
          let '(sz, archive) := read_uintmax archive in
          let fileInfo := {| filename := name; path := ([], EmptyString); size := sz |} in
          let archivedFiles := archivedFiles ++ [fileInfo] in
          let folderFilePath := ([], name) in
          let folderFile := open_in (lookup_path folderFilePath D) in
          match lookup_path folderFilePath D with
          | None => Ret None                       (* [!fs::exists] *)
          | Some k =>
              match file_size k with
              | None => Threw
              | Some fsz =>
                  match sz with
                  | None => Undefined
                  | Some n =>
                      if bool_decide (fsz ≠ n) then Ret None
                      else
                        let '(bufferArchive, archive) := read (N.to_nat n) archive in
                        let '(bufferFile, _) := read (N.to_nat fsz) folderFile in
                        match strcmp_eq bufferArchive bufferFile with
                        | None => Undefined
                        | Some false => Ret None
                        | Some true => check_loop fuel' archive D archivedFiles
                        end
                  end
              end
          end
  end.

Definition checkArchive (A : afile) (D : list entry) : outcome bool :=
  let archive := open_archive A in
  if negb (in_open archive) then Ret false
  else
    match check_loop (S (length (in_rest archive))) archive D [] with
    | Ret None => Ret false
    | Ret (Some archivedFiles) =>
        match count_files D 0 with
        | None => Undefined
        | Some counterOfFiles =>
            if bool_decide (counterOfFiles ≠ to_int (Z.of_nat (length archivedFiles)))
            then Ret false
            else Ret true
        end
    | Threw => Threw
    | Undefined => Undefined
    | OutOfFuel => OutOfFuel
    end.

(** *** archiveFiles *)

(** Lines 56-64. *)
Definition info_of (e : entry) : FileInfo :=
  {| filename := e_name e; path := e_path e; size := file_size (e_kind e) |}.

Definition scan (D : list entry) : list FileInfo :=
  map info_of (filter (λ e, is_regular_file e = true) D).

Definition size_bytes (sz : option N) : list byte :=
  le_bytes sizeof_uintmax (default 0%N sz).

(** Lines 67-80. *)
Fixpoint write_files (D : list entry) (files : list FileInfo) (archive : ofstream)
    (log : list event) : ofstream * list event :=
  match files with
  | [] => (archive, log)
  | fileInfo :: files' =>
      let archive := put [x00] (put (String.list_byte_of_string (filename fileInfo)) archive) in
      let archive := put (size_bytes (size fileInfo)) archive in
      let inputFile := open_in (lookup_path (path fileInfo) D) in
      if negb (in_open inputFile) then
        write_files D files' archive (log ++ [Cerr (msg_open_failed (filename fileInfo))])
      else
        write_files D files' (put_rdbuf (in_rest inputFile) archive) log
  end.

Definition archiveFiles (D : list entry) (A : afile) : outcome (afile * list event) :=
  match checkArchive A D with
  | Ret true => Ret (A, [Cout msg_skip])
  | Ret false =>
      if negb (a_writable A) then Ret (A, [Cerr msg_no_write])
      else
        let '(archive, log) := write_files D (scan D) ofstream_new [OpenForWrite] in
        Ret ({| a_content := Some (out_bytes archive);
                a_readable := a_readable A; a_writable := a_writable A |},
             log ++ [Cout msg_archived])
  | Threw => Threw
  | Undefined => Undefined
  | OutOfFuel => OutOfFuel
  end.

(** *** unarchiveFiles *)

(** What [new char[n]] holds after [archive.read(buffer, n)] stored [got]:
    the bytes read, then whatever the allocation held before. *)
Definition fill_buffer (junk : nat → byte) (n : nat) (got : list byte) : list byte :=
  got ++ map junk (seq (length got) (n - length got)).

(** The loop of lines 96-113. *)
Fixpoint unarchive_loop (junk : nat → byte) (fuel : nat) (archive : ifstream)
    (T : target) (log : list event) : outcome (target * list event) :=
  match fuel with
  | O => OutOfFuel
  | S fuel' =>
      if in_eofbit archive then Ret (T, log)
      else
        let '(name, archive) := getline archive in
        if bool_decide (name = EmptyString) then Ret (T, log)
        else
          let '(sz, archive) := read_uintmax archive in
          if negb (t_can_create T name) then
            unarchive_loop junk fuel' archive T (log ++ [Cerr (msg_create_failed name)])
          else
            match sz with
            | None => Undefined
            | Some n =>
                let '(got, archive) := read (N.to_nat n) archive in
                let buffer := fill_buffer junk (N.to_nat n) got in
                unarchive_loop junk fuel' archive
                  {| t_files := <[name := buffer]> (t_files T);
                     t_can_create := t_can_create T |} log
            end
  end.

Definition unarchiveFiles (junk : nat → byte) (A : afile) (T : target)
    : outcome (target * list event) :=
  let archive := open_archive A in
  if negb (in_open archive) then Ret (T, [Cerr msg_no_read])
  else
    match unarchive_loop junk (S (length (in_rest archive))) archive T [] with
    | Ret (T', log) => Ret (T', log ++ [Cout msg_unarchived])
    | o => o
    end.

(** ** The container format

    A record is framed as the file name, one ['\0'], the size as 8 bytes and
    the content; an archive is the concatenation of its records.  These two
    definitions restate the format; the lemmas below relate the loops of
    the program to them. *)

Definition record_bytes (r : string * list byte) : list byte :=
  String.list_byte_of_string r.1 ++ [x00]
    ++ le_bytes sizeof_uintmax (N.of_nat (length r.2)) ++ r.2.

Definition archive_bytes (recs : list (string * list byte)) : list byte :=
  concat (map record_bytes recs).

(** The files of the source folder as records, in scan order. *)
Definition content_of (k : kind) : list byte :=
  match k with Regular data _ => data | _ => [] end.

Definition rec_of (e : entry) : string * list byte :=
  (e_name e, content_of (e_kind e)).

Definition records (D : list entry) : list (string * list byte) :=
  map rec_of (filter (λ e, is_regular_file e = true) D).

(** The folder as a file system shows it: no two entries at one path. *)
Definition distinct_paths (D : list entry) : Prop := NoDup (map e_path D).

(** Every regular file of the folder can be opened for reading. *)
Definition all_readable (D : list entry) : Prop :=
  Forall (λ e, match e_kind e with Regular _ r => r = true | _ => True end) D.

(** No regular file of the folder lies in a subdirectory. *)
Definition flat (D : list entry) : Prop :=
  Forall (λ e, is_regular_file e = true → e_dir e = []) D.

(** The [FileInfo] that [checkArchive] pushes for a well-formed record. *)
Definition header_of (r : string * list byte) : FileInfo :=
  {| filename := r.1; path := ([], EmptyString); size := Some (N.of_nat (length r.2)) |}.

(** A name a file system can hold and the format can frame: not empty and
    free of ['\0']. *)
Definition valid_name (name : string) : Prop :=
  name ≠ EmptyString ∧ Forall (λ b, is_nul b = false) (String.list_byte_of_string name).

(** A size that fits [std::uintmax_t]. *)
Definition fits_uintmax (data : list byte) : Prop :=
  (N.of_nat (length data) < 2 ^ 64)%N.

Definition valid_record (r : string * list byte) : Prop :=
  valid_name r.1 ∧ fits_uintmax r.2.

(** Every scanned file but the last one is non-empty. *)
Fixpoint no_early_empty (recs : list (string * list byte)) : Prop :=
  match recs with
  | [] => True
  | r :: recs' =>
      match recs' with
      | [] => True
      | _ :: _ => r.2 ≠ [] ∧ no_early_empty recs'
      end
  end.

(** What the extraction loop leaves in the target folder when every record
    is written: later records overwrite earlier ones of the same name. *)
Definition write_all (recs : list (string * list byte)) (m : gmap string (list byte))
    : gmap string (list byte) :=
  foldl (λ m r, <[r.1 := r.2]> m) m recs.

(** A stream in the good state: no flag set. *)
Definition good_stream (o : bool) (bs : list byte) : ifstream :=
  {| in_open := o; in_rest := bs; in_eofbit := false; in_failbit := false |}.

Definition with_files (T : target) (m : gmap string (list byte)) : target :=
  {| t_files := m; t_can_create := t_can_create T |}.

(** ** Concrete folders and archives used in the examples *)

Definition bytes_of (s : string) : list byte := String.list_byte_of_string s.

Definition plain_file (dir : list string) (name : string) (data : list byte) : entry :=
  {| e_dir := dir; e_name := name; e_kind := Regular data true |}.

Definition locked_file (dir : list string) (name : string) (data : list byte) : entry :=
  {| e_dir := dir; e_name := name; e_kind := Regular data false |}.

Definition archive_of (data : list byte) : afile :=
  {| a_content := Some data; a_readable := true; a_writable := true |}.

Definition no_archive : afile :=
  {| a_content := None; a_readable := true; a_writable := true |}.

Definition new_folder : target :=
  {| t_files := ∅; t_can_create := λ _, true |}.

Definition stars : nat → byte := λ _, x2a.

(** A binary file, and the same file with its last byte changed. *)
Definition bin_before : list entry := [plain_file [] "a.bin" [x00; x01]].
Definition bin_after : list entry := [plain_file [] "a.bin" [x00; x02]].

(** A folder whose first file cannot be opened. *)
Definition locked_folder : list entry :=
  [locked_file [] "a.txt" (bytes_of "hello"); plain_file [] "b.txt" (bytes_of "hi")].

(** A target folder in which no file named [a] can be created. *)
Definition no_a_folder : target :=
  {| t_files := ∅; t_can_create := λ name, negb (String.eqb name "a") |}.

Definition two_records : list (string * list byte) :=
  [("a"%string, bytes_of "hello"); ("b"%string, bytes_of "x")].

(** An archive cut off inside the content of its only record: the header
    announces 5 bytes, 2 follow. *)
Definition cut_archive : afile :=
  archive_of (bytes_of "a" ++ [x00] ++ le_bytes sizeof_uintmax 5 ++ bytes_of "xy").


(** A folder that holds a subdirectory and no regular file. *)
Definition only_subdir : list entry :=
  [{| e_dir := []; e_name := "sub"; e_kind := Directory |}].


(** Two files of one base name in two subdirectories. *)
Definition two_x : list entry :=
  [plain_file ["s1"%string] "x" (bytes_of "one"); plain_file ["s2"%string] "x" (bytes_of "two")].

Definition two_readme : list entry :=
  [plain_file ["docs"%string] "readme" (bytes_of "v1");
   plain_file ["src"%string] "readme" (bytes_of "v2")].

(** The folder of the spec's scenario in the two orders a scan can yield. *)
Definition empty_last : list entry :=
  [plain_file [] "a.txt" (bytes_of "xyz"); plain_file [] "b.bin" []].
Definition empty_first : list entry :=
  [plain_file [] "b.bin" []; plain_file [] "a.txt" (bytes_of "xyz")].

(** A binary file inside a subdirectory. *)
Definition nested : list entry := [plain_file ["sub"%string] "a.bin" [x61; x00]].

(** Archive a folder to a path that does not exist yet, then extract into
    [T]: the files of the target folder afterwards. *)
Definition roundtrip (junk : nat → byte) (D : list entry) (T : target)
    : option (gmap string (list byte)) :=
  match archiveFiles D no_archive with
  | Ret (A, _) =>
      match unarchiveFiles junk A T with
      | Ret (T', _) => Some (t_files T')
      | _ => None
      end
  | _ => None
  end.

(** ** Termination measure of the two decoding loops *)

(** The bytes a loop can still extract before [eof()] holds. *)
Definition pending (s : ifstream) : nat :=
  if in_eofbit s then 0 else length (in_rest s).

(** The run ended within the loop bound of the model. *)
Definition finished {A : Type} (o : outcome A) : bool :=
  match o with OutOfFuel => false | _ => true end.

(** The text file of the spec's scenario, before and after one letter
    changes case. *)
Definition txt_before : list entry := [plain_file [] "a.txt" (bytes_of "xyz")].
Definition txt_after : list entry := [plain_file [] "a.txt" (bytes_of "xyZ")].

(** ** The command line *)

(** What the paths of a command line denote: the source folder scanned at a
    path, the archive file at a path, and the target folder at a path.  One
    run of [main] uses a path in one of these roles only. *)
Record world : Type := {
  w_folder : string → list entry;
  w_archive : string → afile;
  w_target : string → target
}.

Definition set_archive (W : world) (p : string) (A : afile) : world :=
  {| w_folder := w_folder W;
     w_archive := λ q, if String.eqb q p then A else w_archive W q;
     w_target := w_target W |}.

Definition set_target (W : world) (p : string) (T : target) : world :=
  {| w_folder := w_folder W;
     w_archive := w_archive W;
     w_target := λ q, if String.eqb q p then T else w_target W q |}.

Definition msg_usage (argv0 : string) : string :=
  ("Usage: " ++ argv0 ++ " <-a/-u> <folder/archive> <output_folder/archive>")%string.
Definition msg_invalid_mode : string :=
  "Invalid mode. Please use -a for archiving or -u for unarchiving."%string.

(** Lines 19-39.  [argc] is the length of [argv]; the result carries the
    value [main] returns.  With [argc = 0] the usage line would print the
    null pointer [argv[0]]. *)
Definition main (junk : nat → byte) (W : world) (argv : list string)
    : outcome (world * list event * Z) :=
  if (length argv <? 4)%nat then
    match argv with
    | [] => Undefined
    | argv0 :: _ => Ret (W, [Cerr (msg_usage argv0)], 1%Z)
    end
  else
    let mode := nth 1 argv EmptyString in
    let source := nth 2 argv EmptyString in
    let destination := nth 3 argv EmptyString in
    if String.eqb mode "-a" then
      match archiveFiles (w_folder W source) (w_archive W destination) with
      | Ret (A', log) => Ret (set_archive W destination A', log, 0%Z)
      | Threw => Threw
      | Undefined => Undefined
      | OutOfFuel => OutOfFuel
      end
    else if String.eqb mode "-u" then
      match unarchiveFiles junk (w_archive W source) (w_target W destination) with
      | Ret (T', log) => Ret (set_target W destination T', log, 0%Z)
      | Threw => Threw
      | Undefined => Undefined
      | OutOfFuel => OutOfFuel
      end
    else Ret (W, [Cerr msg_invalid_mode], 1%Z).

(** ** What a verdict of the verifier rests on *)

(** [strcmp] takes [a] and [b] for equal: they share a zero-free prefix and
    the ['\0'] behind it. *)
Definition same_c_string (a b : list byte) : Prop :=
  ∃ p a' b', Forall (λ c, is_nul c = false) p ∧ a = p ++ x00 :: a' ∧ b = p ++ x00 :: b'.

(** The record has a readable file of its name directly in the folder, of
    the same size, that [strcmp] takes for equal. *)
Definition matched (D : list entry) (r : string * list byte) : Prop :=
  ∃ d, lookup_path ([], r.1) D = Some (Regular d true)
       ∧ length d = length r.2
       ∧ same_c_string r.2 d.

(** A world for the examples: the folder [empty_last] at [src], no archive
    yet, new target folders. *)
Definition demo_world : world :=
  {| w_folder := λ _, empty_last;
     w_archive := λ _, no_archive;
     w_target := λ _, new_folder |}.

(** A target folder that already holds two files, in which [keep.txt]
    cannot be created anew. *)
Definition used_folder : target :=
  {| t_files := {[ "keep.txt"%string := bytes_of "old"; "a"%string := bytes_of "stale" ]};
     t_can_create := λ name, negb (String.eqb name "keep.txt") |}.

(** A regular file that can be opened and is not empty. *)
Definition readable_nonempty (e : entry) : Prop :=
  ∃ data, e_kind e = Regular data true ∧ data ≠ [].

(** The header that the write loop emits for a file: name, ['\0'], size. *)
Definition header_bytes (name : string) (data : list byte) : list byte :=
  String.list_byte_of_string name ++ [x00]
    ++ le_bytes sizeof_uintmax (N.of_nat (length data)).

(** [empty_first] with one more file behind [a.txt]. *)
Definition empty_middle : list entry :=
  plain_file [] "first.txt" (bytes_of "1") :: empty_first.

(** ** Plain names *)

(** ['/'], and ['\\'] where it separates path components. *)
Definition is_separator (b : byte) : bool := Byte.eqb b x2f || Byte.eqb b x5c.

(** A name that [folder + "/" + name] resolves to the entry of that very
    name directly inside [folder]. *)
Definition plain_name (name : string) : Prop :=
  valid_name name
  ∧ Forall (λ b, is_separator b = false) (String.list_byte_of_string name)
  ∧ name ≠ "."%string ∧ name ≠ ".."%string.

Definition plain_record (r : string * list byte) : Prop :=
  plain_name r.1 ∧ fits_uintmax r.2.

(** ** Extraction with its allocation *)

Definition PTRDIFF_MAX : N := 2 ^ 63 - 1.

(** [new char[n]] returns a buffer: the request does not exceed the largest
    object size, and the allocator, [can_allocate], can serve it.
    Otherwise [std::bad_alloc] (or [std::bad_array_new_length], derived
    from it) is thrown. *)
Definition new_char_array (can_allocate : N → bool) (n : N) : bool :=
  (n <=? PTRDIFF_MAX)%N && can_allocate n.

(** The loop of lines 96-113 with lines 103 and 109 spelled out: the
    [std::ofstream] constructor creates or truncates the file before the
    buffer is allocated, and an exception of [new char[fileInfo.size]]
    leaves the function.  The result is the target folder and the output
    reached, and how the run ended. *)
Fixpoint unarchive_loop_mem (can_allocate : N → bool) (junk : nat → byte) (fuel : nat)
    (archive : ifstream) (T : target) (log : list event)
    : target * list event * outcome unit :=
  match fuel with
  | O => (T, log, OutOfFuel)
  | S fuel' =>
      if in_eofbit archive then (T, log, Ret tt)
      else
        let '(name, archive) := getline archive in
        if bool_decide (name = EmptyString) then (T, log, Ret tt)
        else
          let '(sz, archive) := read_uintmax archive in
          if negb (t_can_create T name) then
            unarchive_loop_mem can_allocate junk fuel' archive T
              (log ++ [Cerr (msg_create_failed name)])
          else
            let T := with_files T (<[name := []]> (t_files T)) in
            match sz with
            | None => (T, log, Undefined)
            | Some n =>
                if negb (new_char_array can_allocate n) then (T, log, Threw)
                else
                  let '(got, archive) := read (N.to_nat n) archive in
                  let buffer := fill_buffer junk (N.to_nat n) got in
                  unarchive_loop_mem can_allocate junk fuel' archive
                    (with_files T (<[name := buffer]> (t_files T))) log
            end
  end.

Definition unarchiveFiles_mem (can_allocate : N → bool) (junk : nat → byte) (A : afile)
    (T : target) : target * list event * outcome unit :=
  let archive := open_archive A in
  if negb (in_open archive) then (T, [Cerr msg_no_read], Ret tt)
  else
    match unarchive_loop_mem can_allocate junk (S (length (in_rest archive))) archive T []
    with
    | (T', log, Ret _) => (T', log ++ [Cout msg_unarchived], Ret tt)
    | r => r
    end.

(** An allocator that serves every request up to the largest object size. *)
Definition plenty : N → bool := λ _, true.

(** [cut_archive] with a header that announces [2^64 - 1] bytes. *)
Definition huge_archive : afile :=
  archive_of (bytes_of "a" ++ [x00] ++ le_bytes sizeof_uintmax (2 ^ 64 - 1) ++ bytes_of "xy").

(** ** Lemmas on bytes *)

Section wire_lemmas.

Lemma byte_of_N_to_N (n : N) : Byte.to_N (byte_of_N n) = (n mod 256)%N.
Proof.
  unfold byte_of_N.
  destruct (Byte.of_N (n mod 256)) as [b|] eqn:E.
  - by apply Byte.to_of_N.
  - apply Byte.of_N_None_iff in E.
    pose proof (N.mod_upper_bound n 256). lia.
Qed.

Lemma length_le_bytes (k : nat) (n : N) : length (le_bytes k n) = k.
Proof. revert n. induction k as [|k IH]; intros n; simpl; [done|by rewrite IH]. Qed.

Lemma le_value_le_bytes (k : nat) (n : N) :
  le_value (le_bytes k n) = (n mod 256 ^ N.of_nat k)%N.
Proof.
  revert n. induction k as [|k IH]; intros n.
  - simpl. by rewrite N.mod_1_r.
  - cbn [le_bytes le_value]. rewrite byte_of_N_to_N, IH.
    rewrite Nat2N.inj_succ, N.pow_succ_r'.
    rewrite (N.Div0.mod_mul_r n 256 (256 ^ N.of_nat k)). lia.
Qed.

Lemma le_value_size (n : N) :
  (n < 2 ^ 64)%N → le_value (le_bytes sizeof_uintmax n) = n.
Proof.
  intros Hn. rewrite le_value_le_bytes.
  apply N.mod_small. exact Hn.
Qed.

Lemma byte_eqb_refl (b : byte) : Byte.eqb b b = true.
Proof. by apply Byte.byte_dec_lb. Qed.

Lemma split_at_nul_app (s rest : list byte) :
  Forall (λ b, is_nul b = false) s →
  split_at_nul (s ++ x00 :: rest) = (s, Some rest).
Proof.
  induction 1 as [|b s Hb _ IH]; simpl; [done|].
  by rewrite Hb, IH.
Qed.

(** [strcmp] of a buffer with an identical copy answers "equal" as soon
    as the buffer holds a ['\0']. *)
Lemma strcmp_eq_refl (a : list byte) :
  x00 ∈ a → strcmp_eq a a = Some true.
Proof.
  induction a as [|x a IH]; intros Hin.
  - by apply elem_of_nil in Hin.
  - simpl. rewrite byte_eqb_refl.
    destruct (is_nul x) eqn:E; [done|].
    apply elem_of_cons in Hin as [<-|Hin]; [done|by apply IH].
Qed.

(** [strcmp] never looks behind the first ['\0']. *)
Lemma strcmp_eq_after_nul (p a b : list byte) :
  strcmp_eq (p ++ x00 :: a) (p ++ x00 :: b) = Some true.
Proof.
  induction p as [|x p IH]; simpl.
  - done.
  - rewrite byte_eqb_refl. by destruct (is_nul x).
Qed.

(** A difference that no ['\0'] precedes is found. *)
Lemma strcmp_eq_differ (p a b : list byte) (x y : byte) :
  Forall (λ c, is_nul c = false) p →
  x ≠ y →
  strcmp_eq (p ++ x :: a) (p ++ y :: b) = Some false.
Proof.
  intros Hp Hxy. induction Hp as [|c p Hc _ IH]; cbn.
  - destruct (Byte.eqb x y) eqn:E; [|done].
    by apply Byte.byte_dec_bl in E.
  - by rewrite byte_eqb_refl, Hc.
Qed.

End wire_lemmas.

(** ** Lemmas on streams *)

Section stream_lemmas.

Lemma ifstream_of_good (data : list byte) : ifstream_of data = good_stream true data.
Proof. done. Qed.

Lemma getline_name (o : bool) (name : string) (rest : list byte) :
  Forall (λ b, is_nul b = false) (String.list_byte_of_string name) →
  getline (good_stream o (String.list_byte_of_string name ++ x00 :: rest))
  = (name, good_stream o rest).
Proof.
  intros Hname. unfold getline, good_stream; simpl.
  rewrite split_at_nul_app by done.
  by rewrite String.string_of_list_byte_of_string.
Qed.

Lemma read_exact (o : bool) (data rest : list byte) :
  read (length data) (good_stream o (data ++ rest)) = (data, good_stream o rest).
Proof.
  unfold read, good_stream; simpl.
  rewrite length_app.
  destruct (Nat.leb_spec (length data) (length data + length rest)); [|lia].
  by rewrite take_app_length, drop_app_length.
Qed.

(** A read that asks for more than is left stores what is left and raises
    [eofbit]. *)
Lemma read_short (o : bool) (n : nat) (got : list byte) :
  length got < n →
  read n (good_stream o got)
  = (got, {| in_open := o; in_rest := []; in_eofbit := true; in_failbit := true |}).
Proof.
  intros Hlt. unfold read, good_stream; simpl.
  destruct (Nat.leb_spec n (length got)); [lia|done].
Qed.

Lemma read_uintmax_size (o : bool) (n : N) (rest : list byte) :
  (n < 2 ^ 64)%N →
  read_uintmax (good_stream o (le_bytes sizeof_uintmax n ++ rest))
  = (Some n, good_stream o rest).
Proof.
  intros Hn. unfold read_uintmax.
  rewrite <- (length_le_bytes sizeof_uintmax n) at 1.
  rewrite read_exact, length_le_bytes, Nat.eqb_refl.
  by rewrite le_value_size.
Qed.

Lemma fill_buffer_full (junk : nat → byte) (data : list byte) :
  fill_buffer junk (length data) data = data.
Proof.
  unfold fill_buffer. rewrite Nat.sub_diag. simpl. by rewrite app_nil_r.
Qed.

Lemma length_fill_buffer (junk : nat → byte) (n : nat) (got : list byte) :
  length got ≤ n → length (fill_buffer junk n got) = n.
Proof.
  intros H. unfold fill_buffer.
  rewrite length_app, length_map, length_seq. lia.
Qed.

Lemma valid_name_nonempty (name : string) :
  valid_name name → bool_decide (name = EmptyString) = false.
Proof. intros [Hne _]. by apply bool_decide_eq_false. Qed.

End stream_lemmas.

(** The start of a loop turn on a well-formed header: [getline] yields the
    name, the name is not empty, and the size arrives in full. *)
Ltac decode_header Hname :=
  rewrite getline_name by apply Hname;
  rewrite valid_name_nonempty by done;
  rewrite read_uintmax_size by done.

(** Side conditions on concrete folders and archives, by evaluation. *)
Ltac by_evaluation :=
  first
    [ reflexivity
    | discriminate
    | apply (bool_decide_unpack _); vm_compute; exact I
    | vm_compute; lia
    | repeat constructor; done ].

(** ** Extraction of a well-formed archive *)

Section unarchive_lemmas.

Variable junk : nat → byte.

(** One turn of the extraction loop on a well-formed record. *)
Lemma unarchive_loop_record (fuel : nat) (o : bool) (r : string * list byte)
    (rest : list byte) (T : target) (log : list event) :
  valid_record r →
  t_can_create T r.1 = true →
  unarchive_loop junk (S fuel) (good_stream o (record_bytes r ++ rest)) T log
  = unarchive_loop junk fuel (good_stream o rest)
      (with_files T (<[r.1 := r.2]> (t_files T))) log.
Proof.
  intros [Hname Hsize] Hcreate.
  destruct r as [name data]; cbn [fst snd] in *.
  unfold record_bytes; cbn [fst snd unarchive_loop in_eofbit good_stream].
  fold (good_stream o). rewrite <- !app_assoc. cbn [app].
  decode_header Hname.
  rewrite Hcreate; cbn [negb].
  rewrite Nat2N.id, read_exact, fill_buffer_full.
  done.
Qed.

Lemma unarchive_loop_end (fuel : nat) (o : bool) (T : target) (log : list event) :
  unarchive_loop junk (S fuel) (good_stream o []) T log = Ret (T, log).
Proof. done. Qed.

Lemma unarchive_loop_encode (recs : list (string * list byte)) :
  ∀ (fuel : nat) (o : bool) (rest : list byte) (T : target) (log : list event),
    Forall valid_record recs →
    Forall (λ r, t_can_create T r.1 = true) recs →
    unarchive_loop junk (length recs + fuel) (good_stream o (archive_bytes recs ++ rest)) T log
    = unarchive_loop junk fuel (good_stream o rest)
        (with_files T (write_all recs (t_files T))) log.
Proof.
  induction recs as [|r recs IH]; intros fuel o rest T log Hvalid Hcreate.
  - cbn. by destruct T.
  - inversion Hvalid as [|? ? Hr Hrecs]; subst.
    inversion Hcreate as [|? ? Hc Hcs]; subst.
    unfold archive_bytes; cbn [map concat length Nat.add]. rewrite <- app_assoc.
    rewrite unarchive_loop_record by done.
    fold (archive_bytes recs). rewrite IH by done.
    done.
Qed.

End unarchive_lemmas.

(** ** Writing an archive *)

Section archive_lemmas.

Lemma put_good (bs : list byte) (s : ofstream) :
  out_failbit s = false →
  put bs s = {| out_bytes := out_bytes s ++ bs; out_failbit := false |}.
Proof. intros H. unfold put. by rewrite H. Qed.

Lemma out_bytes_put_rdbuf (data : list byte) (s : ofstream) :
  out_failbit s = false →
  out_bytes (put_rdbuf data s) = out_bytes s ++ data.
Proof.
  intros H. unfold put_rdbuf. rewrite H.
  destruct data; simpl; [by rewrite app_nil_r|done].
Qed.

Lemma put_rdbuf_good (data : list byte) (s : ofstream) :
  out_failbit s = false → data ≠ [] →
  put_rdbuf data s = {| out_bytes := out_bytes s ++ data; out_failbit := false |}.
Proof.
  intros H Hne. unfold put_rdbuf. rewrite H. by destruct data.
Qed.

Lemma lookup_path_distinct (D : list entry) (e : entry) :
  distinct_paths D → e ∈ D → lookup_path (e_path e) D = Some (e_kind e).
Proof.
  unfold distinct_paths.
  induction D as [|e0 D IH]; intros Hnd Hin; [by apply elem_of_nil in Hin|].
  simpl in *. apply NoDup_cons in Hnd as [Hnotin Hnd].
  case_bool_decide as Hp.
  - apply elem_of_cons in Hin as [->|Hin]; [done|].
    exfalso. apply Hnotin. rewrite Hp.
    apply list_elem_of_fmap. by exists e.
  - apply elem_of_cons in Hin as [->|Hin]; [done|]. by apply IH.
Qed.

(** The write loop on files that can all be opened appends exactly their
    records. *)
Lemma write_files_records (D : list entry) (es : list entry) :
  ∀ (s : ofstream) (log : list event),
    (∀ e, e ∈ es →
       lookup_path (e_path e) D = Some (e_kind e)
       ∧ ∃ data, e_kind e = Regular data true) →
    no_early_empty (map rec_of es) →
    out_failbit s = false →
    out_bytes (write_files D (map info_of es) s log).1
      = out_bytes s ++ archive_bytes (map rec_of es)
    ∧ (write_files D (map info_of es) s log).2 = log.
Proof.
  induction es as [|e es IH]; intros s log Hes Hne Hs.
  - cbn. by rewrite app_nil_r.
  - destruct (Hes e) as [Hlook [data Hkind]]; [by left|].
    cbn [map write_files info_of filename path size].
    rewrite Hlook, Hkind. cbn [open_in ifstream_of in_open in_rest negb file_size].
    rewrite (put_good _ s Hs).
    rewrite (put_good [x00]) by done.
    rewrite (put_good (size_bytes _)) by done.
    cbn [out_bytes out_failbit].
    set (s3 := {| out_bytes := _; out_failbit := false |}).
    assert (Hrec : out_bytes s3 ++ data = out_bytes s ++ record_bytes (rec_of e)).
    { unfold s3, record_bytes, rec_of, size_bytes. cbn [out_bytes fst snd default].
      rewrite Hkind. cbn [content_of]. by rewrite <- !app_assoc. }
    destruct es as [|e' es'].
    + cbn [map write_files fst snd].
      rewrite out_bytes_put_rdbuf by done.
      unfold archive_bytes. cbn [map concat]. by rewrite app_nil_r.
    + assert (Hdata : data ≠ []).
      { cbn [map no_early_empty] in Hne. destruct Hne as [Hd _].
        unfold rec_of in Hd. rewrite Hkind in Hd. exact Hd. }
      rewrite put_rdbuf_good by done.
      destruct (IH {| out_bytes := out_bytes s3 ++ data; out_failbit := false |} log)
        as [Hb Hl].
      * intros x Hx. apply Hes. by right.
      * cbn [map no_early_empty] in Hne. cbn [map]. apply Hne.
      * done.
      * split; [|exact Hl].
        rewrite Hb. cbn [out_bytes]. rewrite Hrec.
        unfold archive_bytes. cbn [map concat]. by rewrite <- !app_assoc.
Qed.

Lemma write_files_scan (D : list entry) :
  distinct_paths D → all_readable D → no_early_empty (records D) →
  write_files D (scan D) ofstream_new [OpenForWrite]
  = ((write_files D (scan D) ofstream_new [OpenForWrite]).1, [OpenForWrite])
  ∧ out_bytes (write_files D (scan D) ofstream_new [OpenForWrite]).1 = archive_bytes (records D).
Proof.
  intros Hnd Hread Hne.
  destruct (write_files_records D (filter (λ e, is_regular_file e = true) D)
              ofstream_new [OpenForWrite]) as [Hb Hl].
  - intros e He. apply list_elem_of_filter in He as [Hreg He].
    split; [by apply lookup_path_distinct|].
    unfold is_regular_file in Hreg.
    unfold all_readable in Hread. rewrite Forall_forall in Hread.
    specialize (Hread e He).
    destruct (e_kind e) as [data r| |] eqn:Hk; try done.
    exists data. by rewrite Hread.
  - exact Hne.
  - done.
  - fold (scan D) in Hb, Hl. fold (records D) in Hb.
    split; [|exact Hb].
    destruct (write_files D (scan D) ofstream_new [OpenForWrite]) as [s l].
    simpl in Hl. by rewrite Hl.
Qed.

(** Archiving when the verifier answers [false] and the archive can be
    written. *)
Lemma archiveFiles_writes (D : list entry) (A : afile) :
  distinct_paths D → all_readable D → no_early_empty (records D) →
  checkArchive A D = Ret false →
  a_writable A = true →
  archiveFiles D A
  = Ret ({| a_content := Some (archive_bytes (records D));
            a_readable := a_readable A; a_writable := true |},
         [OpenForWrite; Cout msg_archived]).
Proof.
  intros Hnd Hread Hne Hcheck Hw.
  unfold archiveFiles. rewrite Hcheck, Hw. cbn [negb].
  destruct (write_files_scan D Hnd Hread Hne) as [Hpair Hbytes].
  rewrite Hpair, Hbytes. done.
Qed.

End archive_lemmas.

(** ** Verifying a well-formed archive *)

Section check_lemmas.

Lemma to_int_small (z : Z) : (0 ≤ z ≤ INT_MAX)%Z → to_int z = z.
Proof.
  unfold to_int, INT_MAX. intros Hz.
  rewrite Z.mod_small by lia. lia.
Qed.

Lemma count_files_spec (D : list entry) :
  ∀ c : Z,
    (c + Z.of_nat (length (filter (λ e, is_regular_file e = true) D)) ≤ INT_MAX)%Z →
    count_files D c
    = Some (c + Z.of_nat (length (filter (λ e, is_regular_file e = true) D)))%Z.
Proof.
  induction D as [|e D IH]; intros c Hc.
  - cbn. f_equal. lia.
  - cbn [count_files]. rewrite filter_cons in Hc |- *.
    destruct (is_regular_file e) eqn:Hreg.
    + rewrite decide_True in Hc |- * by done. cbn [length] in Hc |- *.
      destruct (Z.ltb_spec c INT_MAX); [|lia].
      rewrite IH by lia. f_equal. lia.
    + rewrite decide_False in Hc |- * by (by intros ?). by apply IH.
Qed.

Lemma length_records (D : list entry) :
  length (records D) = length (filter (λ e, is_regular_file e = true) D).
Proof. unfold records. by rewrite length_map. Qed.

Lemma length_encode_ge (recs : list (string * list byte)) :
  length recs ≤ length (archive_bytes recs).
Proof.
  induction recs as [|r recs IH]; [done|].
  unfold archive_bytes in *. cbn [map concat length].
  rewrite length_app. unfold record_bytes at 1.
  rewrite !length_app. cbn [length]. lia.
Qed.

(** One turn of the verifier's loop on a record whose file is in the
    folder with the same size: [strcmp] decides. *)
Lemma check_loop_turn (fuel : nat) (o : bool) (r : string * list byte)
    (d rest : list byte) (D : list entry) (files : list FileInfo) :
  valid_record r →
  lookup_path ([], r.1) D = Some (Regular d true) →
  length d = length r.2 →
  check_loop (S fuel) (good_stream o (record_bytes r ++ rest)) D files
  = match strcmp_eq r.2 d with
    | None => Undefined
    | Some false => Ret None
    | Some true => check_loop fuel (good_stream o rest) D (files ++ [header_of r])
    end.
Proof.
  intros [Hname Hsize] Hlook Hlen.
  destruct r as [name data]; cbn [fst snd] in *.
  unfold record_bytes; cbn [fst snd check_loop in_eofbit good_stream].
  fold (good_stream o). rewrite <- !app_assoc. cbn [app].
  decode_header Hname.
  rewrite Hlook. cbn [file_size open_in]. rewrite Hlen.
  rewrite bool_decide_eq_false_2 by (by intros H; apply H).
  rewrite Nat2N.id, read_exact.
  rewrite ifstream_of_good. rewrite <- Hlen.
  rewrite <- (app_nil_r d) at 2. rewrite read_exact.
  unfold header_of. cbn [fst snd]. by rewrite Hlen.
Qed.

Lemma check_loop_strcmp (fuel : nat) (o : bool) (r : string * list byte)
    (d rest : list byte) (D : list entry) (files : list FileInfo) :
  valid_record r →
  lookup_path ([], r.1) D = Some (Regular d true) →
  length d = length r.2 →
  strcmp_eq r.2 d = Some true →
  check_loop (S fuel) (good_stream o (record_bytes r ++ rest)) D files
  = check_loop fuel (good_stream o rest) D (files ++ [header_of r]).
Proof.
  intros Hvalid Hlook Hlen Hcmp.
  rewrite (check_loop_turn _ _ _ d) by done. by rewrite Hcmp.
Qed.

Lemma check_loop_record (fuel : nat) (o : bool) (r : string * list byte)
    (rest : list byte) (D : list entry) (files : list FileInfo) :
  valid_record r →
  lookup_path ([], r.1) D = Some (Regular r.2 true) →
  x00 ∈ r.2 →
  check_loop (S fuel) (good_stream o (record_bytes r ++ rest)) D files
  = check_loop fuel (good_stream o rest) D (files ++ [header_of r]).
Proof.
  intros Hvalid Hlook Hnul.
  apply (check_loop_strcmp _ _ _ r.2); [done|done|done|by apply strcmp_eq_refl].
Qed.

Lemma check_loop_end (fuel : nat) (o : bool) (D : list entry) (files : list FileInfo) :
  check_loop (S fuel) (good_stream o []) D files = Ret (Some files).
Proof. done. Qed.

Lemma check_loop_encode (recs : list (string * list byte)) :
  ∀ (fuel : nat) (o : bool) (rest : list byte) (D : list entry) (files : list FileInfo),
    Forall valid_record recs →
    Forall (λ r, lookup_path ([], r.1) D = Some (Regular r.2 true) ∧ x00 ∈ r.2) recs →
    check_loop (length recs + fuel) (good_stream o (archive_bytes recs ++ rest)) D files
    = check_loop fuel (good_stream o rest) D (files ++ map header_of recs).
Proof.
  induction recs as [|r recs IH]; intros fuel o rest D files Hvalid Hfiles.
  - cbn. by rewrite app_nil_r.
  - inversion Hvalid as [|? ? Hr Hrecs]; subst.
    inversion Hfiles as [|? ? [Hl Hn] Hfs]; subst.
    unfold archive_bytes; cbn [map concat length Nat.add]. rewrite <- app_assoc.
    rewrite check_loop_record by done.
    fold (archive_bytes recs). rewrite IH by done.
    by rewrite <- app_assoc.
Qed.

(** The verifier accepts the archive of a flat folder whose files all
    hold a ['\0']. *)
Lemma checkArchive_encode (D : list entry) (A : afile) :
  distinct_paths D → all_readable D → flat D →
  Forall valid_record (records D) →
  Forall (λ r, x00 ∈ r.2) (records D) →
  (Z.of_nat (length (records D)) ≤ INT_MAX)%Z →
  a_content A = Some (archive_bytes (records D)) →
  a_readable A = true →
  checkArchive A D = Ret true.
Proof.
  intros Hnd Hread Hflat Hvalid Hnul Hcount Hcontent Hr.
  unfold checkArchive, open_archive. rewrite Hcontent, Hr.
  cbn [ifstream_of in_open in_rest negb].
  pose proof (length_encode_ge (records D)) as Hlen.
  replace (S (length (archive_bytes (records D))))
    with (length (records D) + S (length (archive_bytes (records D)) - length (records D)))
    by lia.
  assert (Hfiles : Forall (λ r, lookup_path ([], r.1) D = Some (Regular r.2 true)
                                ∧ x00 ∈ r.2) (records D)).
  { unfold records in *.
    rewrite Forall_fmap in Hnul |- *.
    apply Forall_forall. intros e He.
    rewrite Forall_forall in Hnul. specialize (Hnul e He).
    apply list_elem_of_filter in He as [Hreg He].
    split; [|exact Hnul].
    cbn. unfold rec_of; cbn [fst snd].
    pose proof (lookup_path_distinct D e Hnd He) as Hlook.
    unfold flat in Hflat. rewrite Forall_forall in Hflat.
    unfold e_path in Hlook. rewrite (Hflat e He Hreg) in Hlook.
    rewrite Hlook. unfold is_regular_file in Hreg.
    unfold all_readable in Hread. rewrite Forall_forall in Hread.
    specialize (Hread e He).
    destruct (e_kind e) as [data r| |] eqn:Hk; try done.
    cbn. by rewrite Hread. }
  pose proof (check_loop_encode (records D)
                (S (length (archive_bytes (records D)) - length (records D)))
                true [] D [] Hvalid Hfiles) as Hloop.
  rewrite app_nil_r in Hloop. rewrite ifstream_of_good, Hloop, check_loop_end.
  rewrite length_records in Hcount.
  rewrite count_files_spec by lia.
  cbn [app]. rewrite length_map, length_records.
  rewrite to_int_small by lia.
  rewrite Z.add_0_l.
  by rewrite bool_decide_eq_false_2 by (by intros H; apply H).
Qed.

End check_lemmas.

(** ** The verifier compares with [strcmp] *)

Section strcmp_verifier.

(** X4: [checkArchive] never looks behind the first ['\0'] of a file: a
    one-file folder whose file changed only behind it still passes the
    verifier. *)
Theorem checkArchive_prefix_only (name : string) (p a b : list byte) :
  valid_name name →
  fits_uintmax (p ++ x00 :: a) →
  length a = length b →
  checkArchive (archive_of (archive_bytes [(name, p ++ x00 :: a)]))
               [plain_file [] name (p ++ x00 :: b)]
  = Ret true.
Proof.
  intros Hname Hfits Hlen.
  unfold checkArchive, archive_of, open_archive.
  cbn [a_content a_readable ifstream_of in_open in_rest negb].
  pose proof (length_encode_ge [(name, p ++ x00 :: a)]) as Hge. cbn [length] in Hge.
  replace (S (length (archive_bytes [(name, p ++ x00 :: a)])))
    with (S (S (length (archive_bytes [(name, p ++ x00 :: a)]) - 1))) by lia.
  unfold archive_bytes. cbn [map concat].
  fold (good_stream true (record_bytes (name, p ++ x00 :: a) ++ [])).
  rewrite (check_loop_strcmp _ true (name, p ++ x00 :: a) (p ++ x00 :: b)).
  - rewrite check_loop_end. done.
  - done.
  - cbn. by rewrite bool_decide_eq_true_2.
  - cbn [snd]. rewrite !length_app. cbn [length]. lia.
  - apply strcmp_eq_after_nul.
Qed.

End strcmp_verifier.

Lemma checkArchive_prefix_only_witness :
  checkArchive (archive_of (archive_bytes [("a.bin"%string, [] ++ x00 :: [x01])]))
               [plain_file [] "a.bin" ([] ++ x00 :: [x02])]
  = Ret true.
Proof.
  apply (checkArchive_prefix_only "a.bin" [] [x01] [x02]);
    by_evaluation.
Defined.

(** C1: the specification describes the verifier's content comparison as a
    full byte-for-byte equality check that sees a change at any position,
    also behind an embedded zero byte, so that the next [archiveFiles]
    rewrites the archive.  [checkArchive] compares with [strcmp]: the
    archive made from [a.bin] = 00 01 is accepted for the folder in which
    [a.bin] = 00 02, and archiving that folder again writes nothing. *)
Theorem checkArchive_misses_change_after_nul :
  archiveFiles bin_before no_archive
  = Ret (archive_of (archive_bytes (records bin_before)), [OpenForWrite; Cout msg_archived])
  ∧ checkArchive (archive_of (archive_bytes (records bin_before))) bin_after = Ret true
  ∧ archiveFiles bin_after (archive_of (archive_bytes (records bin_before)))
    = Ret (archive_of (archive_bytes (records bin_before)), [Cout msg_skip]).
Proof. repeat split; vm_compute; reflexivity. Qed.

(** C4: the specification has the record of a file that cannot be opened
    skipped entirely, with no orphan header left.  [archiveFiles] writes
    name and size before it tries to open the file, so the archive of
    [locked_folder] keeps the header of [a.txt] (5 bytes announced, none
    written) and is not the archive of [b.txt] alone. *)
Theorem archiveFiles_leaves_orphan_header :
  archiveFiles locked_folder no_archive
  = Ret (archive_of (bytes_of "a.txt" ++ [x00] ++ le_bytes sizeof_uintmax 5
                       ++ record_bytes ("b.txt"%string, bytes_of "hi")),
         [OpenForWrite; Cerr (msg_open_failed "a.txt"); Cout msg_archived])
  ∧ bytes_of "a.txt" ++ [x00] ++ le_bytes sizeof_uintmax 5
      ++ record_bytes ("b.txt"%string, bytes_of "hi")
    ≠ archive_bytes [("b.txt"%string, bytes_of "hi")].
Proof. split; [vm_compute; reflexivity|vm_compute; discriminate]. Qed.

(** C5: the specification has the content of a record whose file cannot be
    created consumed, so that the records behind it are still extracted.
    [unarchiveFiles] leaves the loop turn before it reads the content: with
    [a] refused, the content of [a] is read as the start of the next name,
    [b] is never written and a file [hellob] appears. *)
Theorem unarchiveFiles_skip_loses_alignment (junk : nat → byte) :
  unarchiveFiles junk (archive_of (archive_bytes two_records)) no_a_folder
  = Ret (with_files no_a_folder {[ "hellob"%string := bytes_of "x" ]},
         [Cerr (msg_create_failed "a"); Cout msg_unarchived])
  ∧ ({[ "hellob"%string := bytes_of "x" ]} : gmap string (list byte)) !! "b"%string = None.
Proof. split; vm_compute; reflexivity. Qed.

(** ** Extraction of a truncated archive *)

Section truncation.

Variable can_allocate : N → bool.
Variable junk : nat → byte.

Lemma plain_record_valid (r : string * list byte) : plain_record r → valid_record r.
Proof. by intros [[Hname _] Hsize]. Qed.

Lemma Forall_plain_record_valid (recs : list (string * list byte)) :
  Forall plain_record recs → Forall valid_record recs.
Proof. intros H. eapply Forall_impl; [exact H|apply plain_record_valid]. Qed.

(** One turn of the loop, with its allocation, on a well-formed record. *)
Lemma unarchive_loop_mem_record (fuel : nat) (o : bool) (r : string * list byte)
    (rest : list byte) (T : target) (log : list event) :
  valid_record r →
  t_can_create T r.1 = true →
  new_char_array can_allocate (N.of_nat (length r.2)) = true →
  unarchive_loop_mem can_allocate junk (S fuel)
    (good_stream o (record_bytes r ++ rest)) T log
  = unarchive_loop_mem can_allocate junk fuel (good_stream o rest)
      (with_files T (<[r.1 := r.2]> (t_files T))) log.
Proof.
  intros [Hname Hsize] Hcreate Halloc.
  destruct r as [name data]; cbn [fst snd] in *.
  unfold record_bytes; cbn [fst snd unarchive_loop_mem in_eofbit good_stream].
  fold (good_stream o). rewrite <- !app_assoc. cbn [app].
  decode_header Hname.
  rewrite Hcreate, Halloc; cbn [negb].
  rewrite Nat2N.id, read_exact, fill_buffer_full.
  unfold with_files; cbn [t_files t_can_create]. by rewrite insert_insert_eq.
Qed.

Lemma unarchive_loop_mem_encode (recs : list (string * list byte)) :
  ∀ (fuel : nat) (o : bool) (rest : list byte) (T : target) (log : list event),
    Forall valid_record recs →
    Forall (λ r, t_can_create T r.1 = true) recs →
    Forall (λ r, new_char_array can_allocate (N.of_nat (length r.2)) = true) recs →
    unarchive_loop_mem can_allocate junk (length recs + fuel)
      (good_stream o (archive_bytes recs ++ rest)) T log
    = unarchive_loop_mem can_allocate junk fuel (good_stream o rest)
        (with_files T (write_all recs (t_files T))) log.
Proof.
  induction recs as [|r recs IH]; intros fuel o rest T log Hvalid Hcreate Halloc.
  - cbn. by destruct T.
  - inversion Hvalid as [|? ? Hr Hrecs]; subst.
    inversion Hcreate as [|? ? Hc Hcs]; subst.
    inversion Halloc as [|? ? Ha Has]; subst.
    unfold archive_bytes; cbn [map concat length Nat.add]. rewrite <- app_assoc.
    rewrite unarchive_loop_mem_record by done.
    fold (archive_bytes recs). rewrite IH by done.
    done.
Qed.

(** The loop turn on a record whose content is cut short, and the turn
    after it, which finds [eofbit] set. *)
Lemma unarchive_loop_mem_truncated (fuel : nat) (o : bool) (name : string) (n : N)
    (got : list byte) (T : target) (log : list event) :
  valid_name name →
  (n < 2 ^ 64)%N →
  length got < N.to_nat n →
  t_can_create T name = true →
  unarchive_loop_mem can_allocate junk (S (S fuel))
    (good_stream o (bytes_of name ++ [x00] ++ le_bytes sizeof_uintmax n ++ got)) T log
  = if new_char_array can_allocate n
    then (with_files T (<[name := fill_buffer junk (N.to_nat n) got]> (t_files T)),
          log, Ret tt)
    else (with_files T (<[name := []]> (t_files T)), log, Threw).
Proof.
  intros Hname Hn Hshort Hcreate.
  cbn [unarchive_loop_mem in_eofbit good_stream app]. fold (good_stream o).
  unfold bytes_of. decode_header Hname.
  rewrite Hcreate. cbn [negb].
  destruct (new_char_array can_allocate n); cbn [negb]; [|done].
  rewrite read_short by done. cbn [in_eofbit].
  unfold with_files; cbn [t_files t_can_create]. by rewrite insert_insert_eq.
Qed.

Lemma length_truncated_record (name : string) (n : N) (got : list byte) :
  1 ≤ length (bytes_of name ++ [x00] ++ le_bytes sizeof_uintmax n ++ got).
Proof. rewrite !length_app. cbn [length]. lia. Qed.

(** A run of the loop with its allocation that returns is a run of
    [unarchive_loop]: the two differ only where an allocation fails or an
    unassigned size is used. *)
Lemma unarchive_loop_mem_agrees (fuel : nat) :
  ∀ (s : ifstream) (T T' : target) (log log' : list event),
    unarchive_loop_mem can_allocate junk fuel s T log = (T', log', Ret tt) →
    unarchive_loop junk fuel s T log = Ret (T', log').
Proof.
  induction fuel as [|fuel IH]; intros s T T' log log' Hrun; [done|].
  cbn [unarchive_loop_mem unarchive_loop] in *.
  destruct (in_eofbit s); [by injection Hrun as <- <-|].
  destruct (getline s) as [name s1].
  case_bool_decide; [by injection Hrun as <- <-|].
  destruct (read_uintmax s1) as [sz s2].
  destruct (negb (t_can_create T name)); [by apply IH|].
  destruct sz as [n|]; [|done].
  destruct (negb (new_char_array can_allocate n)); [done|].
  destruct (read (N.to_nat n) s2) as [got s3].
  apply IH. unfold with_files in Hrun; cbn [t_files t_can_create] in Hrun.
  by rewrite insert_insert_eq in Hrun.
Qed.

End truncation.

(** C6 (as amended): extraction reports no error of its own on a truncated
    archive.  When, behind any number of well-formed records, a record
    announces more content bytes than the archive still holds, the record's
    file has already been created; if a buffer of the announced size can be
    allocated, [unarchiveFiles] writes the file with exactly the announced
    size (the bytes that were left, then whatever the buffer held), stops,
    and prints only the completion message; if it cannot, [std::bad_alloc]
    leaves the function, the file stays empty and no completion message is
    printed. *)
Theorem unarchiveFiles_truncated_content (can_allocate : N → bool) (junk : nat → byte)
    (recs : list (string * list byte)) (name : string) (n : N) (got : list byte)
    (T : target) :
  Forall plain_record recs →
  Forall (λ r, t_can_create T r.1 = true) recs →
  Forall (λ r, new_char_array can_allocate (N.of_nat (length r.2)) = true) recs →
  plain_name name →
  t_can_create T name = true →
  (n < 2 ^ 64)%N →
  length got < N.to_nat n →
  unarchiveFiles_mem can_allocate junk
    (archive_of (archive_bytes recs
                   ++ bytes_of name ++ [x00] ++ le_bytes sizeof_uintmax n ++ got)) T
  = (if new_char_array can_allocate n
     then (with_files T (<[name := fill_buffer junk (N.to_nat n) got]>
                           (write_all recs (t_files T))),
           [Cout msg_unarchived], Ret tt)
     else (with_files T (<[name := []]> (write_all recs (t_files T))), [], Threw))
  ∧ length (fill_buffer junk (N.to_nat n) got) = N.to_nat n
  ∧ take (length got) (fill_buffer junk (N.to_nat n) got) = got.
Proof.
  intros Hplain Hcreate Halloc [Hname _] Hcreate' Hn Hshort.
  apply Forall_plain_record_valid in Hplain.
  split; [|split].
  - unfold unarchiveFiles_mem, archive_of, open_archive.
    cbn [a_content a_readable ifstream_of in_open in_rest negb].
    set (tail := bytes_of name ++ [x00] ++ le_bytes sizeof_uintmax n ++ got).
    pose proof (length_encode_ge recs) as Hge.
    pose proof (length_truncated_record name n got) as Htail. fold tail in Htail.
    rewrite length_app.
    replace (S (length (archive_bytes recs) + length tail))
      with (length recs
            + S (S (length (archive_bytes recs) + length tail - length recs - 1)))
      by lia.
    rewrite ifstream_of_good, unarchive_loop_mem_encode by done.
    unfold tail. rewrite unarchive_loop_mem_truncated by done.
    by destruct (new_char_array can_allocate n).
  - apply length_fill_buffer. lia.
  - unfold fill_buffer. by rewrite take_app_length.
Qed.

Lemma unarchiveFiles_truncated_content_witness :
  unarchiveFiles_mem plenty stars
    (archive_of (archive_bytes []
                   ++ bytes_of "a" ++ [x00] ++ le_bytes sizeof_uintmax 5 ++ bytes_of "xy"))
    new_folder
  = (if new_char_array plenty 5
     then (with_files new_folder
             (<["a"%string := fill_buffer stars (N.to_nat 5) (bytes_of "xy")]>
                (write_all [] (t_files new_folder))),
           [Cout msg_unarchived], Ret tt)
     else (with_files new_folder (<["a"%string := []]> (write_all [] (t_files new_folder))),
           [], Threw))
  ∧ length (fill_buffer stars (N.to_nat 5) (bytes_of "xy")) = N.to_nat 5
  ∧ take (length (bytes_of "xy")) (fill_buffer stars (N.to_nat 5) (bytes_of "xy"))
    = bytes_of "xy".
Proof.
  apply (unarchiveFiles_truncated_content plenty stars [] "a" 5 (bytes_of "xy") new_folder);
    by_evaluation.
Defined.

(** C6 as the specification states it (a [Truncated] error, no file of the
    announced size) does not hold: [cut_archive] announces 5 content bytes
    for [a] and holds 2; with memory for 5 bytes the run ends normally,
    prints only the completion message and has written a 5-byte file [a]. *)
Lemma truncated_archive_is_written_silently :
  unarchiveFiles_mem plenty stars cut_archive new_folder
  = (with_files new_folder {[ "a"%string := bytes_of "xy" ++ [x2a; x2a; x2a] ]},
     [Cout msg_unarchived], Ret tt)
  ∧ length (bytes_of "xy" ++ [x2a; x2a; x2a]) = 5.
Proof. split; vm_compute; reflexivity. Qed.

(** A header that announces [2^64 - 1] bytes: no allocator serves that, the
    exception leaves [unarchiveFiles], the file [a] stays empty and nothing
    is printed. *)
Lemma huge_size_throws (can_allocate : N → bool) (junk : nat → byte) :
  unarchiveFiles_mem can_allocate junk huge_archive new_folder
  = (with_files new_folder {[ "a"%string := [] ]}, [], Threw).
Proof. vm_compute. reflexivity. Qed.



(** C8: archiving a folder without regular files, when the archive is
    absent, empty or found not equivalent, leaves a zero-length archive;
    the decoding loop on it ends at once with no record; and extracting it
    writes no file and prints only the completion message. *)
Theorem empty_folder_archive (junk : nat → byte) (D : list entry) (A : afile) (T : target) :
  filter (λ e, is_regular_file e = true) D = [] →
  a_writable A = true →
  a_readable A = true →
  (a_content A = None ∨ a_content A = Some [] ∨ checkArchive A D = Ret false) →
  ∃ (A' : afile) (log : list event),
    archiveFiles D A = Ret (A', log)
    ∧ a_content A' = Some []
    ∧ check_loop (S (length (in_rest (open_archive A')))) (open_archive A') D []
      = Ret (Some [])
    ∧ unarchiveFiles junk A' T = Ret (T, [Cout msg_unarchived]).
Proof.
  intros Hnone Hw Hr Hstate.
  assert (Hempty : ∀ A0 : afile,
             a_content A0 = Some [] → a_readable A0 = true →
             check_loop (S (length (in_rest (open_archive A0)))) (open_archive A0) D []
               = Ret (Some [])
             ∧ unarchiveFiles junk A0 T = Ret (T, [Cout msg_unarchived])
             ∧ checkArchive A0 D = Ret true).
  { intros A0 Hc Hr0. unfold unarchiveFiles, checkArchive, open_archive.
    rewrite Hc, Hr0. cbn [ifstream_of in_open in_rest negb length].
    rewrite ifstream_of_good, check_loop_end, unarchive_loop_end.
    rewrite count_files_spec by (rewrite Hnone; done).
    rewrite Hnone. by destruct T. }
  assert (Hwrite : checkArchive A D = Ret false →
             archiveFiles D A
             = Ret ({| a_content := Some []; a_readable := a_readable A;
                       a_writable := a_writable A |},
                    [OpenForWrite; Cout msg_archived])).
  { intros Hcheck. unfold archiveFiles, scan. by rewrite Hcheck, Hw, Hnone. }
  destruct (Hempty {| a_content := Some []; a_readable := a_readable A;
                      a_writable := a_writable A |})
    as (Hloop' & Hun' & _); [done|exact Hr|].
  destruct Hstate as [Hc | [Hc | Hc]].
  - eexists _, _. split; [apply Hwrite|done].
    unfold checkArchive, open_archive. by rewrite Hc.
  - destruct (Hempty A Hc Hr) as (Hloop & Hun & Hcheck).
    exists A, [Cout msg_skip]. unfold archiveFiles. by rewrite Hcheck.
  - eexists _, _. split; [by apply Hwrite|done].
Qed.

Lemma empty_folder_archive_witness :
  ∃ (A' : afile) (log : list event),
    archiveFiles only_subdir no_archive = Ret (A', log)
    ∧ a_content A' = Some []
    ∧ check_loop (S (length (in_rest (open_archive A')))) (open_archive A') only_subdir []
      = Ret (Some [])
    ∧ unarchiveFiles stars A' new_folder = Ret (new_folder, [Cout msg_unarchived]).
Proof.
  apply (empty_folder_archive stars only_subdir no_archive new_folder).
  - reflexivity.
  - reflexivity.
  - reflexivity.
  - left. reflexivity.
Defined.



(** ** Archiving, then extracting *)

Section roundtrip_lemmas.

Variable junk : nat → byte.

Lemma archive_bytes_cons (r : string * list byte) (recs : list (string * list byte)) :
  archive_bytes (r :: recs) = record_bytes r ++ archive_bytes recs.
Proof. done. Qed.

Lemma archive_bytes_app (l k : list (string * list byte)) :
  archive_bytes (l ++ k) = archive_bytes l ++ archive_bytes k.
Proof. unfold archive_bytes. by rewrite map_app, concat_app. Qed.

Lemma write_all_snoc (recs : list (string * list byte)) (r : string * list byte)
    (m : gmap string (list byte)) :
  write_all (recs ++ [r]) m = <[r.1 := r.2]> (write_all recs m).
Proof. unfold write_all. by rewrite foldl_app. Qed.

Lemma write_all_app (l k : list (string * list byte)) (m : gmap string (list byte)) :
  write_all (l ++ k) m = write_all k (write_all l m).
Proof. unfold write_all. by rewrite foldl_app. Qed.

(** A name that no record carries keeps the file it had. *)
Lemma write_all_lookup_other (recs : list (string * list byte)) :
  ∀ (m : gmap string (list byte)) (name : string),
    Forall (λ r, r.1 ≠ name) recs →
    write_all recs m !! name = m !! name.
Proof.
  induction recs as [|r recs IH]; intros m name Hother; [done|].
  inversion Hother as [|? ? Hr Hrecs]; subst.
  cbn [write_all foldl]. fold (write_all recs (<[r.1 := r.2]> m)).
  rewrite IH by done. by rewrite lookup_insert_ne.
Qed.

(** The last record of a name decides the file of that name. *)
Lemma write_all_lookup_last (l k : list (string * list byte)) (r : string * list byte)
    (m : gmap string (list byte)) :
  Forall (λ r', r'.1 ≠ r.1) k →
  write_all (l ++ r :: k) m !! r.1 = Some r.2.
Proof.
  intros Hk. rewrite write_all_app. cbn [write_all foldl].
  fold (write_all k (<[r.1 := r.2]> (write_all l m))).
  rewrite write_all_lookup_other by done.
  apply lookup_insert_eq.
Qed.

(** With pairwise distinct names, an empty folder receives exactly the
    records. *)
Lemma write_all_distinct (recs : list (string * list byte)) (name : string)
    (data : list byte) :
  NoDup (map fst recs) →
  write_all recs ∅ !! name = Some data ↔ (name, data) ∈ recs.
Proof.
  induction recs as [|r recs IH] using rev_ind; intros Hnd.
  - cbn. rewrite lookup_empty. split; [done|]. intros H. by apply elem_of_nil in H.
  - rewrite map_app in Hnd. apply NoDup_app in Hnd as (Hnd & Hnotin & _).
    rewrite write_all_snoc, elem_of_app, list_elem_of_singleton.
    destruct (decide (r.1 = name)) as [<-|Hne].
    + rewrite lookup_insert_eq. split.
      * intros [= <-]. right. by destruct r.
      * intros [Hin | Heq]; [|by rewrite <- Heq].
        exfalso. apply (Hnotin r.1); [|by left].
        apply list_elem_of_fmap. by exists (r.1, data).
    + rewrite lookup_insert_ne by done. rewrite IH by done.
      split; [by left|].
      intros [Hin | Heq]; [done|]. destruct Hne. by rewrite <- Heq.
Qed.

Lemma nul_no_early_empty (recs : list (string * list byte)) :
  Forall (λ r, x00 ∈ r.2) recs → no_early_empty recs.
Proof.
  induction 1 as [|r recs Hr Hrecs IH]; [done|].
  cbn [no_early_empty]. destruct recs; [done|].
  split; [|done]. intros Hnil. rewrite Hnil in Hr. by apply elem_of_nil in Hr.
Qed.

(** Extraction of an archive that holds well-formed records. *)
Lemma unarchiveFiles_archive_bytes (recs : list (string * list byte)) (A : afile)
    (T : target) :
  a_content A = Some (archive_bytes recs) →
  a_readable A = true →
  Forall valid_record recs →
  Forall (λ r, t_can_create T r.1 = true) recs →
  unarchiveFiles junk A T
  = Ret (with_files T (write_all recs (t_files T)), [Cout msg_unarchived]).
Proof.
  intros Hc Hr Hvalid Hcreate.
  unfold unarchiveFiles, open_archive. rewrite Hc, Hr.
  cbn [ifstream_of in_open in_rest negb].
  pose proof (length_encode_ge recs) as Hge.
  replace (S (length (archive_bytes recs)))
    with (length recs + S (length (archive_bytes recs) - length recs)) by lia.
  pose proof (unarchive_loop_encode junk recs
                (S (length (archive_bytes recs) - length recs))
                true [] T [] Hvalid Hcreate) as Hloop.
  rewrite app_nil_r in Hloop.
  by rewrite ifstream_of_good, Hloop, unarchive_loop_end.
Qed.

(** Archiving a folder whose files can all be read, then extracting. *)
Lemma archive_then_unarchive (D : list entry) (A : afile) (T : target) :
  distinct_paths D → all_readable D →
  Forall valid_record (records D) →
  no_early_empty (records D) →
  checkArchive A D = Ret false →
  a_writable A = true →
  a_readable A = true →
  Forall (λ r, t_can_create T r.1 = true) (records D) →
  archiveFiles D A
  = Ret ({| a_content := Some (archive_bytes (records D));
            a_readable := true; a_writable := true |},
         [OpenForWrite; Cout msg_archived])
  ∧ unarchiveFiles junk
      {| a_content := Some (archive_bytes (records D));
         a_readable := true; a_writable := true |} T
    = Ret (with_files T (write_all (records D) (t_files T)), [Cout msg_unarchived]).
Proof.
  intros Hnd Hread Hvalid Hne Hcheck Hw Hr Hcreate.
  split.
  - rewrite archiveFiles_writes by done. by rewrite Hr.
  - by apply unarchiveFiles_archive_bytes.
Qed.

End roundtrip_lemmas.

(** C10: when the folder holds two regular files of one base name in
    different subdirectories, the archive stores a record for each under
    that one name, and extraction writes both to the same path: the target
    folder ends with a single file of that name, holding the content of the
    later record. *)
Theorem basename_collision (junk : nat → byte) (D : list entry) (A : afile) (T : target)
    (F1 F2 F3 : list entry) (e1 e2 : entry) :
  distinct_paths D → all_readable D →
  Forall valid_record (records D) →
  no_early_empty (records D) →
  filter (λ e, is_regular_file e = true) D = F1 ++ e1 :: F2 ++ e2 :: F3 →
  e_name e1 = e_name e2 →
  e_dir e1 ≠ e_dir e2 →
  Forall (λ e, e_name e ≠ e_name e2) F3 →
  checkArchive A D = Ret false →
  a_writable A = true →
  a_readable A = true →
  (∀ name, t_can_create T name = true) →
  ∃ (A' : afile) (T' : target),
    archiveFiles D A = Ret (A', [OpenForWrite; Cout msg_archived])
    ∧ a_content A'
      = Some (archive_bytes (map rec_of F1)
                ++ record_bytes (e_name e2, content_of (e_kind e1))
                ++ archive_bytes (map rec_of F2)
                ++ record_bytes (e_name e2, content_of (e_kind e2))
                ++ archive_bytes (map rec_of F3))
    ∧ unarchiveFiles junk A' T = Ret (T', [Cout msg_unarchived])
    ∧ t_files T' !! e_name e2 = Some (content_of (e_kind e2)).
Proof.
  intros Hnd Hread Hvalid Hne Hfiles Hname _ Hlast Hcheck Hw Hr Hcreate.
  destruct (archive_then_unarchive junk D A T) as [Harch Hun]; try done.
  { apply Forall_forall. intros r _. apply Hcreate. }
  assert (Hrecs : records D
                  = map rec_of F1 ++ (e_name e2, content_of (e_kind e1))
                      :: map rec_of F2 ++ (e_name e2, content_of (e_kind e2))
                      :: map rec_of F3).
  { unfold records. rewrite Hfiles, map_app. cbn [map]. rewrite map_app. cbn [map].
    unfold rec_of at 2 4. by rewrite Hname. }
  eexists _, _. split; [exact Harch|]. split; [|split; [exact Hun|]].
  - cbn [a_content]. rewrite Hrecs.
    rewrite archive_bytes_app, archive_bytes_cons, archive_bytes_app, archive_bytes_cons.
    done.
  - cbn [with_files t_files]. rewrite Hrecs.
    replace (map rec_of F1 ++ (e_name e2, content_of (e_kind e1))
               :: map rec_of F2 ++ (e_name e2, content_of (e_kind e2)) :: map rec_of F3)
      with ((map rec_of F1 ++ (e_name e2, content_of (e_kind e1)) :: map rec_of F2)
              ++ (e_name e2, content_of (e_kind e2)) :: map rec_of F3)
      by (by rewrite <- app_assoc).
    apply (write_all_lookup_last _ _ (e_name e2, content_of (e_kind e2))).
    rewrite Forall_fmap. exact Hlast.
Qed.

Lemma basename_collision_witness :
  ∃ (A' : afile) (T' : target),
    archiveFiles two_x no_archive = Ret (A', [OpenForWrite; Cout msg_archived])
    ∧ a_content A'
      = Some (archive_bytes []
                ++ record_bytes ("x"%string, bytes_of "one")
                ++ archive_bytes []
                ++ record_bytes ("x"%string, bytes_of "two")
                ++ archive_bytes [])
    ∧ unarchiveFiles stars A' new_folder = Ret (T', [Cout msg_unarchived])
    ∧ t_files T' !! "x"%string = Some (bytes_of "two").
Proof.
  apply (basename_collision stars two_x no_archive new_folder [] [] []
           (plain_file ["s1"%string] "x" (bytes_of "one"))
           (plain_file ["s2"%string] "x" (bytes_of "two")));
    by_evaluation.
Defined.

(** C2 (as amended): let the regular files of the folder have pairwise
    distinct base names, let each be readable, and let every one but the
    last scanned be non-empty.  When [archiveFiles] writes the archive and
    [unarchiveFiles] extracts it into an empty folder in which every file
    can be created, that folder ends with exactly the files of the source:
    a file of base name [name] and content [data] is in the one iff it is
    in the other (contents may hold ['\0'] bytes, the last file may be
    empty). *)
Theorem roundtrip_distinct_names (junk : nat → byte) (D : list entry) (A : afile)
    (T : target) :
  distinct_paths D → all_readable D →
  Forall valid_record (records D) →
  no_early_empty (records D) →
  NoDup (map fst (records D)) →
  checkArchive A D = Ret false →
  a_writable A = true →
  a_readable A = true →
  t_files T = ∅ →
  (∀ name, t_can_create T name = true) →
  ∃ (A' : afile) (T' : target),
    archiveFiles D A = Ret (A', [OpenForWrite; Cout msg_archived])
    ∧ unarchiveFiles junk A' T = Ret (T', [Cout msg_unarchived])
    ∧ ∀ (name : string) (data : list byte),
        t_files T' !! name = Some data ↔ (name, data) ∈ records D.
Proof.
  intros Hnd Hread Hvalid Hne Hnames Hcheck Hw Hr Hempty Hcreate.
  destruct (archive_then_unarchive junk D A T) as [Harch Hun]; try done.
  { apply Forall_forall. intros r _. apply Hcreate. }
  eexists _, _. split; [exact Harch|]. split; [exact Hun|].
  intros name data. cbn [with_files t_files]. rewrite Hempty.
  by apply write_all_distinct.
Qed.

Lemma roundtrip_distinct_names_witness :
  ∃ (A' : afile) (T' : target),
    archiveFiles empty_last no_archive = Ret (A', [OpenForWrite; Cout msg_archived])
    ∧ unarchiveFiles stars A' new_folder = Ret (T', [Cout msg_unarchived])
    ∧ ∀ (name : string) (data : list byte),
        t_files T' !! name = Some data ↔ (name, data) ∈ records empty_last.
Proof.
  apply (roundtrip_distinct_names stars empty_last no_archive new_folder);
    by_evaluation.
Defined.

(** C2 as the specification states it (every folder, files of any size)
    does not hold.  Two files [readme] in two subdirectories come back as
    one file, with the content of the second.  And when the scan yields the
    empty [b.bin] before [a.txt], copying the empty file sets [failbit] on
    the archive stream, nothing more is written, and only [b.bin] comes
    back. *)
Lemma roundtrip_loses_files :
  roundtrip stars two_readme new_folder
    = Some {[ "readme"%string := bytes_of "v2" ]}
  ∧ roundtrip stars empty_first new_folder
    = Some {[ "b.bin"%string := [] ]}.
Proof. split; vm_compute; reflexivity. Qed.

(** C3 (as amended): let the folder be flat (every regular file lies
    directly in it), let each file be readable and hold at least one ['\0']
    byte, and let the archive path be readable and writable.  After a call
    of [archiveFiles] has returned, a second call on the unchanged folder
    finds the archive equivalent, opens nothing for writing and returns the
    archive as it was. *)
Theorem archive_twice_flat (D : list entry) (A A1 : afile) (log1 : list event) :
  distinct_paths D → all_readable D → flat D →
  Forall valid_record (records D) →
  Forall (λ r, x00 ∈ r.2) (records D) →
  (Z.of_nat (length (records D)) ≤ INT_MAX)%Z →
  a_writable A = true →
  a_readable A = true →
  archiveFiles D A = Ret (A1, log1) →
  checkArchive A1 D = Ret true
  ∧ archiveFiles D A1 = Ret (A1, [Cout msg_skip]).
Proof.
  intros Hnd Hread Hflat Hvalid Hnul Hcount Hw Hr Hfirst.
  assert (Hcheck1 : checkArchive A1 D = Ret true).
  { destruct (checkArchive A D) as [[|]| | |] eqn:Hcheck.
    - unfold archiveFiles in Hfirst. rewrite Hcheck in Hfirst.
      by injection Hfirst as <- _.
    - rewrite archiveFiles_writes in Hfirst; try done; [|by apply nul_no_early_empty].
      injection Hfirst as <- _.
      by apply checkArchive_encode.
    - unfold archiveFiles in Hfirst. by rewrite Hcheck in Hfirst.
    - unfold archiveFiles in Hfirst. by rewrite Hcheck in Hfirst.
    - unfold archiveFiles in Hfirst. by rewrite Hcheck in Hfirst. }
  split; [exact Hcheck1|].
  unfold archiveFiles. by rewrite Hcheck1.
Qed.

Lemma archive_twice_flat_witness :
  checkArchive (archive_of (archive_bytes (records bin_before))) bin_before = Ret true
  ∧ archiveFiles bin_before (archive_of (archive_bytes (records bin_before)))
    = Ret (archive_of (archive_bytes (records bin_before)), [Cout msg_skip]).
Proof.
  apply (archive_twice_flat bin_before no_archive
           (archive_of (archive_bytes (records bin_before)))
           [OpenForWrite; Cout msg_archived]);
    by_evaluation.
Defined.

(** C3 as the specification states it (every folder) does not hold: the
    verifier looks every record up directly in the folder, so the archive
    of a folder whose file lies in a subdirectory is never found
    equivalent, and the second call opens the archive for writing again. *)
Lemma archive_twice_nested_rewrites :
  archiveFiles nested no_archive
    = Ret (archive_of (archive_bytes (records nested)), [OpenForWrite; Cout msg_archived])
  ∧ checkArchive (archive_of (archive_bytes (records nested))) nested = Ret false
  ∧ archiveFiles nested (archive_of (archive_bytes (records nested)))
    = Ret (archive_of (archive_bytes (records nested)), [OpenForWrite; Cout msg_archived]).
Proof. repeat split; vm_compute; reflexivity. Qed.

(** ** The loop bounds of the model are never reached *)

Section termination.

Lemma split_at_nul_length (l : list byte) :
  length (split_at_nul l).1
    + match (split_at_nul l).2 with Some rest => S (length rest) | None => 0 end
  = length l.
Proof.
  induction l as [|b l IH]; [done|].
  cbn [split_at_nul]. destruct (is_nul b); [done|].
  destruct (split_at_nul l) as [str rest]. cbn [fst snd length] in *. lia.
Qed.

Lemma read_pending (n : nat) (s : ifstream) : pending (read n s).2 ≤ pending s.
Proof.
  unfold read, pending, in_good.
  destruct (in_eofbit s) eqn:He, (in_failbit s) eqn:Hf; cbn; rewrite ?He; try lia.
  destruct (Nat.leb_spec n (length (in_rest s))); cbn; [|lia].
  rewrite length_drop. lia.
Qed.

Lemma read_uintmax_pending (s : ifstream) : pending (read_uintmax s).2 ≤ pending s.
Proof.
  unfold read_uintmax. pose proof (read_pending sizeof_uintmax s) as H.
  by destruct (read sizeof_uintmax s).
Qed.

(** A [getline] that yields a name has consumed at least one byte. *)
Lemma getline_pending (s : ifstream) :
  in_eofbit s = false →
  (getline s).1 ≠ EmptyString →
  pending (getline s).2 < pending s.
Proof.
  intros He Hname. unfold getline, pending, in_good in *. rewrite He in *.
  destruct (in_failbit s); cbn in *; [done|].
  pose proof (split_at_nul_length (in_rest s)) as Hlen.
  destruct (split_at_nul (in_rest s)) as [str [rest|]]; cbn in *; [lia|].
  destruct str; [done|]. cbn in Hlen. lia.
Qed.

Lemma unarchive_loop_total (junk : nat → byte) (fuel : nat) :
  ∀ (s : ifstream) (T : target) (log : list event),
    pending s < fuel →
    finished (unarchive_loop junk fuel s T log) = true.
Proof.
  induction fuel as [|fuel IH]; intros s T log Hfuel; [lia|].
  cbn [unarchive_loop].
  destruct (in_eofbit s) eqn:He; [done|].
  pose proof (getline_pending s He) as Hget.
  destruct (getline s) as [name s1]. cbn [fst snd] in Hget.
  case_bool_decide as Hname; [done|]. specialize (Hget Hname).
  pose proof (read_uintmax_pending s1) as Hsz.
  destruct (read_uintmax s1) as [sz s2]. cbn [snd] in Hsz.
  destruct (negb (t_can_create T name)); [apply IH; lia|].
  destruct sz as [n|]; [|done].
  pose proof (read_pending (N.to_nat n) s2) as Hread.
  destruct (read (N.to_nat n) s2) as [got s3]. cbn [snd] in Hread.
  apply IH. lia.
Qed.

Lemma check_loop_total (fuel : nat) :
  ∀ (s : ifstream) (D : list entry) (files : list FileInfo),
    pending s < fuel →
    finished (check_loop fuel s D files) = true.
Proof.
  induction fuel as [|fuel IH]; intros s D files Hfuel; [lia|].
  cbn [check_loop].
  destruct (in_eofbit s) eqn:He; [done|].
  pose proof (getline_pending s He) as Hget.
  destruct (getline s) as [name s1]. cbn [fst snd] in Hget.
  case_bool_decide as Hname; [done|]. specialize (Hget Hname).
  pose proof (read_uintmax_pending s1) as Hsz.
  destruct (read_uintmax s1) as [sz s2]. cbn [snd] in Hsz.
  destruct (lookup_path ([], name) D) as [k|]; [|done].
  destruct (file_size k) as [fsz|]; [|done].
  destruct sz as [n|]; [|done].
  case_bool_decide; [done|].
  pose proof (read_pending (N.to_nat n) s2) as Hread.
  destruct (read (N.to_nat n) s2) as [bufferArchive s3]. cbn [snd] in Hread.
  destruct (read (N.to_nat fsz) _) as [bufferFile s4].
  destruct (strcmp_eq bufferArchive bufferFile) as [[|]|]; [|done|done].
  apply IH. lia.
Qed.

Lemma pending_open_archive (A : afile) :
  pending (open_archive A) < S (length (in_rest (open_archive A))).
Proof.
  unfold pending. destruct (in_eofbit (open_archive A)); lia.
Qed.

End termination.

(** X1: the three operations always end within the loop bounds the model
    gives them: a decoding loop extracts at least one byte in every turn
    that is followed by another. *)
Theorem operations_finish (junk : nat → byte) (D : list entry) (A : afile) (T : target) :
  finished (checkArchive A D) = true
  ∧ finished (archiveFiles D A) = true
  ∧ finished (unarchiveFiles junk A T) = true.
Proof.
  assert (Hcheck : finished (checkArchive A D) = true).
  { unfold checkArchive. destruct (negb _); [done|].
    pose proof (check_loop_total _ (open_archive A) D [] (pending_open_archive A)) as H.
    destruct (check_loop _ _ _ _) as [[files|]| | |]; try done.
    destruct (count_files D 0); [|done]. by case_bool_decide. }
  split; [exact Hcheck|]. split.
  - unfold archiveFiles. destruct (checkArchive A D) as [[|]| | |]; try done.
    destruct (negb _); [done|]. by destruct (write_files _ _ _ _).
  - unfold unarchiveFiles. destruct (negb _); [done|].
    pose proof (unarchive_loop_total junk _ (open_archive A) T [] (pending_open_archive A))
      as H.
    by destruct (unarchive_loop _ _ _ _ _) as [[T' log]| | |].
Qed.

(** X2: an archive that [archiveFiles] writes for a folder whose files can
    all be opened is the plain concatenation of one frame per regular file,
    in scan order: name, ['\0'], 8-byte size, content; no header, no
    trailer, no count. *)
Theorem archive_is_concatenated_frames (D : list entry) (A : afile) :
  distinct_paths D → all_readable D →
  no_early_empty (records D) →
  checkArchive A D = Ret false →
  a_writable A = true →
  ∃ A' : afile,
    archiveFiles D A = Ret (A', [OpenForWrite; Cout msg_archived])
    ∧ a_content A' = Some (concat (map record_bytes (records D))).
Proof.
  intros Hnd Hread Hne Hcheck Hw.
  eexists. split; [by apply archiveFiles_writes|done].
Qed.

Lemma archive_is_concatenated_frames_witness :
  ∃ A' : afile,
    archiveFiles empty_last no_archive = Ret (A', [OpenForWrite; Cout msg_archived])
    ∧ a_content A' = Some (concat (map record_bytes (records empty_last))).
Proof.
  apply (archive_is_concatenated_frames empty_last no_archive);
    by_evaluation.
Defined.

(** X3: the verifier does see a changed byte that no ['\0'] precedes: for
    a one-file folder whose file differs from the archived content at a
    position behind a zero-free common prefix, [checkArchive] returns
    [false]. *)
Theorem checkArchive_sees_early_change (name : string) (p a b : list byte) (x y : byte) :
  valid_name name →
  fits_uintmax (p ++ x :: a) →
  Forall (λ c, is_nul c = false) p →
  x ≠ y →
  length a = length b →
  checkArchive (archive_of (archive_bytes [(name, p ++ x :: a)]))
               [plain_file [] name (p ++ y :: b)]
  = Ret false.
Proof.
  intros Hname Hfits Hp Hxy Hlen.
  unfold checkArchive, archive_of, open_archive.
  cbn [a_content a_readable ifstream_of in_open in_rest negb].
  unfold archive_bytes. cbn [map concat].
  fold (good_stream true (record_bytes (name, p ++ x :: a) ++ [])).
  rewrite (check_loop_turn _ true (name, p ++ x :: a) (p ++ y :: b)).
  - cbn [snd]. by rewrite strcmp_eq_differ.
  - done.
  - cbn. by rewrite bool_decide_eq_true_2.
  - cbn [snd]. rewrite !length_app. cbn [length]. lia.
Qed.

Lemma checkArchive_sees_early_change_witness :
  checkArchive (archive_of (archive_bytes (records txt_before))) txt_after = Ret false.
Proof.
  apply (checkArchive_sees_early_change "a.txt" (bytes_of "xy") [] [] x7a x5a);
    by_evaluation.
Defined.

(** ** The size field *)

(** X5: the 8 bytes written for a size read back as that size modulo
    [2^64], whatever follows them in the stream: every [std::uintmax_t]
    value survives the write and the read unchanged. *)
Theorem size_field_roundtrip (o : bool) (n : N) (rest : list byte) :
  read_uintmax (good_stream o (size_bytes (Some n) ++ rest))
  = (Some (n mod 2 ^ 64)%N, good_stream o rest).
Proof.
  unfold read_uintmax, size_bytes. cbn [default].
  rewrite <- (length_le_bytes sizeof_uintmax n) at 1.
  rewrite read_exact, length_le_bytes, Nat.eqb_refl.
  by rewrite le_value_le_bytes.
Qed.

(** ** The comparison of the verifier *)

Section strcmp_lemmas.

Lemma strcmp_eq_same (a : list byte) :
  ∀ b, strcmp_eq a b = Some true ↔ same_c_string a b.
Proof.
  induction a as [|x a IH]; intros b.
  - split; [done|]. intros (p & a' & b' & _ & Ha & _). by destruct p.
  - destruct b as [|y b].
    { split; [done|]. intros (p & a' & b' & _ & _ & Hb). by destruct p. }
    cbn [strcmp_eq]. destruct (Byte.eqb x y) eqn:Exy.
    + apply Byte.byte_dec_bl in Exy as <-.
      destruct (is_nul x) eqn:Enul.
      * apply Byte.byte_dec_bl in Enul as ->. split; [|done].
        intros _. by exists [], a, b.
      * rewrite IH. split.
        -- intros (p & a' & b' & Hp & -> & ->).
           exists (x :: p), a', b'. split; [by constructor|done].
        -- intros (p & a' & b' & Hp & Ha & Hb).
           destruct p as [|c p]; cbn in Ha, Hb.
           ++ injection Ha as -> _. by vm_compute in Enul.
           ++ injection Ha as -> ->. injection Hb as ->.
              inversion Hp; subst. by exists p, a', b'.
    + split; [done|].
      intros (p & a' & b' & Hp & Ha & Hb).
      destruct p as [|c p]; cbn in Ha, Hb;
        injection Ha as -> _; injection Hb as -> _;
        by rewrite byte_eqb_refl in Exy.
Qed.

End strcmp_lemmas.

(** ** What the verifier's verdicts rest on *)

Section verdict_lemmas.

(** One turn of the verifier's loop on a well-formed record, whatever the
    folder holds. *)
Lemma check_loop_any_turn (fuel : nat) (o : bool) (r : string * list byte)
    (rest : list byte) (D : list entry) (files : list FileInfo) :
  valid_record r →
  check_loop (S fuel) (good_stream o (record_bytes r ++ rest)) D files
  = match lookup_path ([], r.1) D with
    | None => Ret None
    | Some k =>
        match file_size k with
        | None => Threw
        | Some fsz =>
            if bool_decide (fsz ≠ N.of_nat (length r.2)) then Ret None
            else
              match strcmp_eq r.2 (read (N.to_nat fsz) (open_in (Some k))).1 with
              | None => Undefined
              | Some false => Ret None
              | Some true =>
                  check_loop fuel (good_stream o rest) D (files ++ [header_of r])
              end
        end
    end.
Proof.
  intros [Hname Hsize].
  destruct r as [name data]; cbn [fst snd] in *.
  unfold record_bytes; cbn [fst snd check_loop in_eofbit good_stream].
  fold (good_stream o). rewrite <- !app_assoc. cbn [app].
  decode_header Hname.
  destruct (lookup_path ([], name) D) as [k|]; [|done].
  destruct (file_size k) as [fsz|]; [|done].
  case_bool_decide; [done|].
  rewrite Nat2N.id, read_exact.
  by destruct (read (N.to_nat fsz) (open_in (Some k))) as [bufferFile s'].
Qed.

(** The loop is left normally only when every record was matched. *)
Lemma check_loop_matched (recs : list (string * list byte)) :
  ∀ (fuel : nat) (o : bool) (D : list entry) (files res : list FileInfo),
    Forall valid_record recs →
    check_loop (length recs + S fuel) (good_stream o (archive_bytes recs)) D files
      = Ret (Some res) →
    Forall (matched D) recs ∧ res = files ++ map header_of recs.
Proof.
  induction recs as [|r recs IH]; intros fuel o D files res Hvalid Hloop.
  - cbn in Hloop. injection Hloop as <-. by rewrite app_nil_r.
  - inversion Hvalid as [|? ? Hr Hrecs]; subst.
    rewrite archive_bytes_cons in Hloop. cbn [length Nat.add] in Hloop.
    rewrite check_loop_any_turn in Hloop by done.
    destruct (lookup_path ([], r.1) D) as [k|] eqn:Hlook; [|done].
    destruct k as [d readable| |]; cbn [file_size] in Hloop; [|done|done].
    case_bool_decide as Hsz; [done|].
    destruct readable; cbn [open_in] in Hloop.
    + rewrite ifstream_of_good, Nat2N.id in Hloop.
      rewrite <- (app_nil_r d) in Hloop at 2. rewrite read_exact in Hloop.
      cbn [fst] in Hloop.
      destruct (strcmp_eq r.2 d) as [[|]|] eqn:Hcmp; [|done|done].
      destruct (IH _ _ _ _ _ Hrecs Hloop) as [Hall ->].
      split; [|by rewrite <- app_assoc].
      constructor; [|done].
      exists d. split; [done|]. split; [|by apply strcmp_eq_same].
      lia.
    + cbn in Hloop. by destruct (r.2).
Qed.

Lemma count_files_result (D : list entry) :
  ∀ c c' : Z,
    count_files D c = Some c' →
    c' = (c + Z.of_nat (length (filter (λ e, is_regular_file e = true) D)))%Z.
Proof.
  induction D as [|e D IH]; intros c c' Hc.
  - cbn in *. injection Hc as <-. lia.
  - cbn [count_files] in Hc. rewrite filter_cons.
    destruct (is_regular_file e) eqn:Hreg.
    + rewrite decide_True by done. cbn [length].
      destruct (c <? INT_MAX)%Z; [|done].
      apply IH in Hc. lia.
    + rewrite decide_False by (by intros ?). by apply IH.
Qed.

End verdict_lemmas.

(** With a zero byte in the first buffer and equal sizes, [strcmp] ends
    inside both buffers. *)
Lemma strcmp_eq_defined (a : list byte) :
  ∀ b, x00 ∈ a → length a = length b → strcmp_eq a b ≠ None.
Proof.
  induction a as [|x a IH]; intros b Hin Hlen; [by apply elem_of_nil in Hin|].
  destruct b as [|y b]; [done|]. cbn [strcmp_eq].
  destruct (Byte.eqb x y); [|done].
  destruct (is_nul x) eqn:Enul; [done|].
  apply elem_of_cons in Hin as [<-|Hin]; [by vm_compute in Enul|].
  apply IH; [done|]. cbn in Hlen. lia.
Qed.

(** X6: for a folder that holds one file, and an archive of one record of
    that (plain) name and size whose content holds a zero byte, the verdict
    of [checkArchive] is decided by the bytes up to the first zero byte
    alone: it is [true] when record and file share a zero-free prefix and
    the zero byte behind it, and [false] otherwise. *)
Theorem checkArchive_one_file_verdict (name : string) (data d : list byte) :
  plain_name name →
  fits_uintmax data →
  x00 ∈ data →
  length d = length data →
  (checkArchive (archive_of (archive_bytes [(name, data)])) [plain_file [] name d] = Ret true
   ∧ same_c_string data d)
  ∨ (checkArchive (archive_of (archive_bytes [(name, data)])) [plain_file [] name d]
       = Ret false
     ∧ ¬ same_c_string data d).
Proof.
  intros [Hname _] Hfits Hnul Hlen.
  assert (Hverdict :
            checkArchive (archive_of (archive_bytes [(name, data)])) [plain_file [] name d]
            = match strcmp_eq data d with
              | Some true => Ret true
              | Some false => Ret false
              | None => Undefined
              end).
  { unfold checkArchive, archive_of, open_archive.
    cbn [a_content a_readable ifstream_of in_open in_rest negb].
    pose proof (length_encode_ge [(name, data)]) as Hge. cbn [length] in Hge.
    replace (S (length (archive_bytes [(name, data)])))
      with (S (S (length (archive_bytes [(name, data)]) - 1))) by lia.
    unfold archive_bytes. cbn [map concat].
    rewrite ifstream_of_good, check_loop_any_turn by done.
    cbn [fst snd lookup_path plain_file e_path e_dir e_name e_kind].
    rewrite bool_decide_eq_true_2 by done. cbn [file_size open_in].
    rewrite bool_decide_eq_false_2 by (intros H; apply H; by rewrite Hlen).
    rewrite ifstream_of_good, Nat2N.id.
    rewrite <- (app_nil_r d) at 2. rewrite read_exact. cbn [fst].
    destruct (strcmp_eq data d) as [[|]|]; [|done|done].
    rewrite check_loop_end. reflexivity. }
  rewrite Hverdict.
  pose proof (strcmp_eq_defined data d Hnul (eq_sym Hlen)) as Hdef.
  pose proof (strcmp_eq_same data d) as Hsame.
  destruct (strcmp_eq data d) as [[|]|]; [| |done].
  - left. split; [done|by apply Hsame].
  - right. split; [done|]. intros H. by apply Hsame in H.
Qed.

Lemma checkArchive_one_file_verdict_witness :
  (checkArchive (archive_of (archive_bytes [("a.bin"%string, [x00; x01])]))
                [plain_file [] "a.bin" [x01; x00]] = Ret true
   ∧ same_c_string [x00; x01] [x01; x00])
  ∨ (checkArchive (archive_of (archive_bytes [("a.bin"%string, [x00; x01])]))
                  [plain_file [] "a.bin" [x01; x00]] = Ret false
     ∧ ¬ same_c_string [x00; x01] [x01; x00]).
Proof.
  apply (checkArchive_one_file_verdict "a.bin" [x00; x01] [x01; x00]);
    by_evaluation.
Defined.

(** X7: let the archive hold records with plain names, each with a zero
    byte in its content, and let every regular file of the folder be
    readable (both counts within [int]).  Then a verdict [true] guarantees
    that every record has a file of its name directly in the folder, of the
    same size, that agrees with the record up to and including a first zero
    byte, and that the folder holds as many regular files (counted
    recursively) as the archive holds records.  It guarantees nothing about
    the bytes behind the first zero byte. *)
Theorem checkArchive_true_means (A : afile) (D : list entry)
    (recs : list (string * list byte)) :
  a_content A = Some (archive_bytes recs) →
  Forall plain_record recs →
  Forall (λ r, x00 ∈ r.2) recs →
  all_readable D →
  (Z.of_nat (length recs) ≤ INT_MAX)%Z →
  (Z.of_nat (length (filter (λ e, is_regular_file e = true) D)) ≤ INT_MAX)%Z →
  checkArchive A D = Ret true →
  Forall (matched D) recs
  ∧ length (filter (λ e, is_regular_file e = true) D) = length recs.
Proof.
  intros Hc Hplain _ _ Hint _ Htrue.
  apply Forall_plain_record_valid in Hplain.
  unfold checkArchive, open_archive in Htrue. rewrite Hc in Htrue.
  destruct (a_readable A); [|done].
  cbn [ifstream_of in_open in_rest negb] in Htrue.
  pose proof (length_encode_ge recs) as Hge.
  replace (S (length (archive_bytes recs)))
    with (length recs + S (length (archive_bytes recs) - length recs)) in Htrue by lia.
  rewrite ifstream_of_good in Htrue.
  destruct (check_loop _ _ _ _) as [[res|]| | |] eqn:Hloop; try done.
  apply check_loop_matched in Hloop as [Hall ->]; [|done].
  split; [done|].
  destruct (count_files D 0) as [c|] eqn:Hcount; [|done].
  apply count_files_result in Hcount.
  case_bool_decide as Hne; [done|].
  cbn [app] in Hne. rewrite length_map, to_int_small in Hne by lia. lia.
Qed.

Lemma checkArchive_true_means_witness :
  Forall (matched bin_after) (records bin_before)
  ∧ length (filter (λ e, is_regular_file e = true) bin_after) = length (records bin_before).
Proof.
  apply (checkArchive_true_means (archive_of (archive_bytes (records bin_before)))
           bin_after (records bin_before));
    by_evaluation.
Defined.



(** X9: the verifier answers [false] when a record's file is in the folder
    with another size, whatever the contents are and without comparing
    them, provided the records before it were matched. *)
Theorem checkArchive_size_mismatch (A : afile) (D : list entry)
    (pre : list (string * list byte)) (r : string * list byte) (rest d : list byte)
    (readable : bool) :
  a_content A = Some (archive_bytes pre ++ record_bytes r ++ rest) →
  a_readable A = true →
  Forall valid_record pre →
  Forall (λ r', lookup_path ([], r'.1) D = Some (Regular r'.2 true) ∧ x00 ∈ r'.2) pre →
  valid_record r →
  lookup_path ([], r.1) D = Some (Regular d readable) →
  length d ≠ length r.2 →
  checkArchive A D = Ret false.
Proof.
  intros Hc Hr Hpre Hmatch Hvalid Hlook Hsize.
  unfold checkArchive, open_archive. rewrite Hc, Hr.
  cbn [ifstream_of in_open in_rest negb].
  pose proof (length_encode_ge pre) as Hge.
  rewrite !length_app.
  assert (1 ≤ length (record_bytes r)) as Hlen.
  { unfold record_bytes. rewrite !length_app. cbn [length]. lia. }
  replace (S (length (archive_bytes pre) + (length (record_bytes r) + length rest)))
    with (length pre
          + S (length (archive_bytes pre) + (length (record_bytes r) + length rest)
               - length pre)) by lia.
  rewrite ifstream_of_good, check_loop_encode by done.
  rewrite check_loop_any_turn by done. rewrite Hlook. cbn [file_size].
  rewrite bool_decide_eq_true_2; [done|lia].
Qed.

Lemma checkArchive_size_mismatch_witness :
  checkArchive (archive_of (archive_bytes [] ++ record_bytes ("a.txt"%string, bytes_of "xy") ++ []))
               txt_before
  = Ret false.
Proof.
  apply (checkArchive_size_mismatch _ txt_before [] ("a.txt"%string, bytes_of "xy") []
           (bytes_of "xyz") true);
    by_evaluation.
Defined.

(** ** What extraction leaves alone *)

Section extraction_frame.

Variable junk : nat → byte.

Lemma unarchive_loop_preserves (fuel : nat) :
  ∀ (s : ifstream) (T T' : target) (log log' : list event),
    unarchive_loop junk fuel s T log = Ret (T', log') →
    ∀ name : string,
      (is_Some (t_files T !! name) → is_Some (t_files T' !! name))
      ∧ (t_can_create T name = false → t_files T' !! name = t_files T !! name).
Proof.
  induction fuel as [|fuel IH]; intros s T T' log log' Hloop name; [done|].
  cbn [unarchive_loop] in Hloop.
  destruct (in_eofbit s); [by injection Hloop as <- _|].
  destruct (getline s) as [n s1].
  case_bool_decide; [by injection Hloop as <- _|].
  destruct (read_uintmax s1) as [sz s2].
  destruct (t_can_create T n) eqn:Hcan; cbn [negb] in Hloop.
  - destruct sz as [k|]; [|done].
    destruct (read (N.to_nat k) s2) as [got s3].
    destruct (IH _ _ _ _ _ Hloop name) as [Hkeep Hdeny]. cbn [t_files t_can_create] in *.
    split.
    + intros Hsome. apply Hkeep.
      destruct (decide (n = name)) as [->|Hne];
        [by rewrite lookup_insert_eq|by rewrite lookup_insert_ne].
    + intros Hno. rewrite Hdeny by done.
      apply lookup_insert_ne. intros ->. by rewrite Hcan in Hno.
  - by apply (IH _ _ _ _ _ Hloop).
Qed.

End extraction_frame.

(** X10: whatever bytes the archive holds, an extraction that returns has
    removed no file from the target folder (a file may be overwritten), and
    has left every file untouched whose name cannot be created anew. *)
Theorem unarchiveFiles_removes_nothing (junk : nat → byte) (A : afile) (T T' : target)
    (log : list event) (name : string) :
  unarchiveFiles junk A T = Ret (T', log) →
  (is_Some (t_files T !! name) → is_Some (t_files T' !! name))
  ∧ (t_can_create T name = false → t_files T' !! name = t_files T !! name).
Proof.
  intros Hrun. unfold unarchiveFiles in Hrun.
  destruct (negb (in_open (open_archive A))); [by injection Hrun as <- _|].
  destruct (unarchive_loop _ _ _ _ _) as [[T1 log1]| | |] eqn:Hloop; try done.
  injection Hrun as <- _.
  by apply (unarchive_loop_preserves junk _ _ _ _ _ _ Hloop).
Qed.

Lemma unarchiveFiles_removes_nothing_witness :
  (is_Some (t_files used_folder !! "keep.txt"%string)
   → is_Some (t_files (with_files used_folder
                         (<["b"%string := bytes_of "x"]> (t_files used_folder)))
              !! "keep.txt"%string))
  ∧ (t_can_create used_folder "keep.txt" = false
     → t_files (with_files used_folder
                  (<["b"%string := bytes_of "x"]> (t_files used_folder)))
         !! "keep.txt"%string
       = t_files used_folder !! "keep.txt"%string).
Proof.
  apply (unarchiveFiles_removes_nothing stars
           (archive_of (archive_bytes [("b"%string, bytes_of "x")])) used_folder
           (with_files used_folder (<["b"%string := bytes_of "x"]> (t_files used_folder)))
           [Cout msg_unarchived] "keep.txt").
  vm_compute. reflexivity.
Defined.

(** Extraction, with its allocations, of an archive that holds well-formed
    records. *)
Lemma unarchiveFiles_mem_archive_bytes (can_allocate : N → bool) (junk : nat → byte)
    (recs : list (string * list byte)) (A : afile) (T : target) :
  a_content A = Some (archive_bytes recs) →
  a_readable A = true →
  Forall valid_record recs →
  Forall (λ r, t_can_create T r.1 = true) recs →
  Forall (λ r, new_char_array can_allocate (N.of_nat (length r.2)) = true) recs →
  unarchiveFiles_mem can_allocate junk A T
  = (with_files T (write_all recs (t_files T)), [Cout msg_unarchived], Ret tt).
Proof.
  intros Hc Hr Hvalid Hcreate Halloc.
  unfold unarchiveFiles_mem, open_archive. rewrite Hc, Hr.
  cbn [ifstream_of in_open in_rest negb].
  pose proof (length_encode_ge recs) as Hge.
  replace (S (length (archive_bytes recs)))
    with (length recs + S (length (archive_bytes recs) - length recs)) by lia.
  pose proof (unarchive_loop_mem_encode can_allocate junk recs
                (S (length (archive_bytes recs) - length recs))
                true [] T [] Hvalid Hcreate Halloc) as Hloop.
  rewrite app_nil_r in Hloop.
  by rewrite ifstream_of_good, Hloop.
Qed.

(** X11: extracting an archive of well-formed records with plain names,
    whose buffers can all be allocated, into a folder that already holds
    files overwrites the files that carry a record's name, with the content
    of the last record of that name, and leaves every other file as it
    was. *)
Theorem unarchiveFiles_overwrites (can_allocate : N → bool) (junk : nat → byte)
    (A : afile) (T : target) (recs : list (string * list byte)) :
  a_content A = Some (archive_bytes recs) →
  a_readable A = true →
  Forall plain_record recs →
  Forall (λ r, t_can_create T r.1 = true) recs →
  Forall (λ r, new_char_array can_allocate (N.of_nat (length r.2)) = true) recs →
  ∃ T' : target,
    unarchiveFiles_mem can_allocate junk A T = (T', [Cout msg_unarchived], Ret tt)
    ∧ (∀ name, Forall (λ r, r.1 ≠ name) recs → t_files T' !! name = t_files T !! name)
    ∧ (∀ l r k, recs = l ++ r :: k → Forall (λ r', r'.1 ≠ r.1) k →
                t_files T' !! r.1 = Some r.2).
Proof.
  intros Hc Hr Hplain Hcreate Halloc.
  apply Forall_plain_record_valid in Hplain.
  eexists. split; [by apply unarchiveFiles_mem_archive_bytes|].
  cbn [with_files t_files]. split.
  - intros name Hother. by apply write_all_lookup_other.
  - intros l r k -> Hlast. by apply write_all_lookup_last.
Qed.

Lemma unarchiveFiles_overwrites_witness :
  ∃ T' : target,
    unarchiveFiles_mem plenty stars (archive_of (archive_bytes two_records)) used_folder
      = (T', [Cout msg_unarchived], Ret tt)
    ∧ (∀ name, Forall (λ r, r.1 ≠ name) two_records
               → t_files T' !! name = t_files used_folder !! name)
    ∧ (∀ l r k, two_records = l ++ r :: k → Forall (λ r', r'.1 ≠ r.1) k →
                t_files T' !! r.1 = Some r.2).
Proof.
  apply (unarchiveFiles_overwrites plenty stars (archive_of (archive_bytes two_records))
           used_folder two_records);
    by_evaluation.
Defined.



(** ** What the write loop does on files it cannot copy *)

Section write_loop.

Lemma write_files_app (D : list entry) (l1 l2 : list FileInfo) :
  ∀ (s : ofstream) (log : list event),
    write_files D (l1 ++ l2) s log
    = write_files D l2 (write_files D l1 s log).1 (write_files D l1 s log).2.
Proof.
  induction l1 as [|f l1 IH]; intros s log; [done|].
  cbn [app write_files]. by destruct (negb _).
Qed.

(** Files that can be opened and are not empty leave the stream good. *)
Lemma write_files_nonempty (D : list entry) (es : list entry) :
  ∀ (s : ofstream) (log : list event),
    (∀ e, e ∈ es → lookup_path (e_path e) D = Some (e_kind e)) →
    Forall readable_nonempty es →
    out_failbit s = false →
    write_files D (map info_of es) s log
    = ({| out_bytes := out_bytes s ++ archive_bytes (map rec_of es);
          out_failbit := false |}, log).
Proof.
  induction es as [|e es IH]; intros s log Hlook Hes Hs.
  - cbn. rewrite app_nil_r. by destruct s; cbn in *; subst.
  - inversion Hes as [|? ? (data & Hkind & Hdata) Hes']; subst.
    cbn [map write_files info_of filename path size].
    rewrite (Hlook e) by (by left). rewrite Hkind.
    cbn [open_in ifstream_of in_open in_rest negb file_size].
    rewrite (put_good _ s Hs).
    rewrite (put_good [x00]) by done.
    rewrite (put_good (size_bytes _)) by done.
    rewrite put_rdbuf_good by done.
    rewrite IH; [|intros x Hx; apply Hlook; by right|done|done].
    cbn [out_bytes]. f_equal. f_equal.
    rewrite archive_bytes_cons. unfold record_bytes, rec_of, size_bytes.
    cbn [fst snd default]. rewrite Hkind. cbn [content_of].
    by rewrite <- !app_assoc.
Qed.

(** Once [failbit] is set the loop writes nothing more. *)
Lemma write_files_failed (D : list entry) (files : list FileInfo) :
  ∀ (s : ofstream) (log : list event),
    out_failbit s = true →
    out_bytes (write_files D files s log).1 = out_bytes s.
Proof.
  assert (Hput : ∀ bs s, out_failbit s = true → put bs s = s).
  { intros bs s Hs. unfold put. by rewrite Hs. }
  assert (Hcopy : ∀ bs s, out_failbit s = true → put_rdbuf bs s = s).
  { intros bs s Hs. unfold put_rdbuf. by rewrite Hs. }
  induction files as [|f files IH]; intros s log Hs; [done|].
  cbn [write_files].
  rewrite (Hput _ s Hs), (Hput _ s Hs), (Hput _ s Hs).
  destruct (negb _); [by apply IH|].
  rewrite Hcopy by done. by apply IH.
Qed.

Lemma elem_of_app_l {A : Type} (l k : list A) (x : A) : x ∈ l → x ∈ l ++ k.
Proof. intros H. apply elem_of_app. by left. Qed.

Lemma lookup_regular (D : list entry) (F : list entry) :
  distinct_paths D →
  F ⊆ filter (λ e, is_regular_file e = true) D →
  ∀ e, e ∈ F → lookup_path (e_path e) D = Some (e_kind e).
Proof.
  intros Hnd Hsub e He. apply lookup_path_distinct; [done|].
  apply Hsub in He. by apply list_elem_of_filter in He as [_ He].
Qed.

End write_loop.

(** Side conditions that ask for a witness as well. *)
Ltac by_example := first [ by_evaluation | repeat econstructor; done ].

(** X13: when the scan yields an empty file that can be opened, behind files
    that are all copied, copying it sets [failbit] on the archive stream:
    the archive ends with the header of the empty file, and no later file of
    the folder is stored, whatever it holds. *)
Theorem archiveFiles_stops_after_empty_file (D : list entry) (A : afile)
    (F1 F2 : list entry) (e : entry) :
  distinct_paths D →
  filter (λ e, is_regular_file e = true) D = F1 ++ e :: F2 →
  Forall readable_nonempty F1 →
  e_kind e = Regular [] true →
  checkArchive A D = Ret false →
  a_writable A = true →
  ∃ (A' : afile) (log : list event),
    archiveFiles D A = Ret (A', log)
    ∧ a_content A' = Some (archive_bytes (map rec_of (F1 ++ [e]))).
Proof.
  intros Hnd Hfiles HF1 Hempty Hcheck Hw.
  unfold archiveFiles, scan. rewrite Hcheck, Hw, Hfiles. cbn [negb].
  assert (Hsub : ∀ x, x ∈ F1 ++ e :: F2 →
                      lookup_path (e_path x) D = Some (e_kind x)).
  { apply lookup_regular; [done|]. by rewrite Hfiles. }
  rewrite map_app, write_files_app.
  rewrite (write_files_nonempty D F1 ofstream_new [OpenForWrite]
             (λ x Hx, Hsub x (elem_of_app_l F1 (e :: F2) x Hx)) HF1 eq_refl).
  cbn [fst snd map write_files info_of filename path size].
  rewrite (Hsub e) by set_solver. rewrite Hempty.
  cbn [open_in ifstream_of in_open in_rest negb file_size].
  rewrite !put_good by done. cbn [out_bytes app].
  match goal with
  | |- context [write_files D (map info_of F2) ?s0 ?l0] =>
      pose proof (write_files_failed D (map info_of F2) s0 l0 eq_refl) as Hfail;
      destruct (write_files D (map info_of F2) s0 l0) as [s log]
  end.
  eexists _, _. split; [done|]. cbn [a_content]. f_equal.
  cbn [fst] in Hfail. rewrite Hfail.
  cbn [put_rdbuf out_failbit out_bytes].
  rewrite map_app, archive_bytes_app. cbn [map]. rewrite archive_bytes_cons.
  unfold record_bytes, rec_of, size_bytes, archive_bytes at 3.
  cbn [fst snd default map concat]. rewrite Hempty. cbn [content_of length].
  by rewrite <- !app_assoc, !app_nil_r.
Qed.

Lemma archiveFiles_stops_after_empty_file_witness :
  ∃ (A' : afile) (log : list event),
    archiveFiles empty_middle no_archive = Ret (A', log)
    ∧ a_content A'
      = Some (archive_bytes (map rec_of ([plain_file [] "first.txt" (bytes_of "1")]
                                           ++ [plain_file [] "b.bin" []]))).
Proof.
  apply (archiveFiles_stops_after_empty_file empty_middle no_archive
           [plain_file [] "first.txt" (bytes_of "1")]
           [plain_file [] "a.txt" (bytes_of "xyz")]
           (plain_file [] "b.bin" []));
    by_example.
Defined.

(** X14: a file that cannot be opened for reading, met while the archive
    stream is good, still gets its name, the zero byte and its size written;
    the message names it, no content follows, and the records of the later
    files are appended right behind that header. *)
Theorem archiveFiles_header_without_content (D : list entry) (A : afile)
    (F1 F2 : list entry) (e : entry) (data : list byte) :
  distinct_paths D →
  filter (λ e, is_regular_file e = true) D = F1 ++ e :: F2 →
  Forall readable_nonempty F1 →
  e_kind e = Regular data false →
  Forall readable_nonempty F2 →
  checkArchive A D = Ret false →
  a_writable A = true →
  ∃ A' : afile,
    archiveFiles D A
    = Ret (A', [OpenForWrite; Cerr (msg_open_failed (e_name e)); Cout msg_archived])
    ∧ a_content A'
      = Some (archive_bytes (map rec_of F1)
                ++ header_bytes (e_name e) data
                ++ archive_bytes (map rec_of F2)).
Proof.
  intros Hnd Hfiles HF1 Hlocked HF2 Hcheck Hw.
  unfold archiveFiles, scan. rewrite Hcheck, Hw, Hfiles. cbn [negb].
  assert (Hsub : ∀ x, x ∈ F1 ++ e :: F2 →
                      lookup_path (e_path x) D = Some (e_kind x)).
  { apply lookup_regular; [done|]. by rewrite Hfiles. }
  rewrite map_app, write_files_app.
  rewrite (write_files_nonempty D F1 ofstream_new [OpenForWrite]
             (λ x Hx, Hsub x (elem_of_app_l F1 (e :: F2) x Hx)) HF1 eq_refl).
  cbn [fst snd map write_files info_of filename path size].
  rewrite (Hsub e) by set_solver. rewrite Hlocked.
  cbn [open_in ifstream_closed in_open negb file_size].
  rewrite !put_good by done.
  rewrite (write_files_nonempty D F2); [|intros x Hx; apply Hsub; set_solver|done|done].
  eexists. split; [done|]. cbn [a_content out_bytes app]. f_equal.
  unfold header_bytes, size_bytes. cbn [default]. by rewrite <- !app_assoc.
Qed.

Lemma archiveFiles_header_without_content_witness :
  ∃ A' : afile,
    archiveFiles locked_folder no_archive
    = Ret (A', [OpenForWrite; Cerr (msg_open_failed "a.txt"); Cout msg_archived])
    ∧ a_content A'
      = Some (archive_bytes (map rec_of [])
                ++ header_bytes "a.txt" (bytes_of "hello")
                ++ archive_bytes (map rec_of [plain_file [] "b.txt" (bytes_of "hi")])).
Proof.
  apply (archiveFiles_header_without_content locked_folder no_archive []
           [plain_file [] "b.txt" (bytes_of "hi")]
           (locked_file [] "a.txt" (bytes_of "hello")) (bytes_of "hello"));
    by_example.
Defined.

(** ** More on what the verifier notices *)

Section verifier_changes.

(** In a flat folder every record of the scan is found under its name. *)
Lemma flat_records_found (D : list entry) :
  distinct_paths D → all_readable D → flat D →
  Forall (λ r, x00 ∈ r.2) (records D) →
  Forall (λ r, lookup_path ([], r.1) D = Some (Regular r.2 true) ∧ x00 ∈ r.2) (records D).
Proof.
  intros Hnd Hread Hflat Hnul.
  unfold records in *. rewrite Forall_fmap in Hnul |- *.
  apply Forall_forall. intros e He.
  rewrite Forall_forall in Hnul. specialize (Hnul e He).
  apply list_elem_of_filter in He as [Hreg He].
  split; [|exact Hnul]. cbn. unfold rec_of; cbn [fst snd].
  pose proof (lookup_path_distinct D e Hnd He) as Hlook.
  unfold flat in Hflat. rewrite Forall_forall in Hflat.
  unfold e_path in Hlook. rewrite (Hflat e He Hreg) in Hlook.
  rewrite Hlook. unfold is_regular_file in Hreg.
  unfold all_readable in Hread. rewrite Forall_forall in Hread.
  specialize (Hread e He).
  destruct (e_kind e) as [data r| |] eqn:Hk; try done.
  cbn. by rewrite Hread.
Qed.

(** An entry found in a folder is found in every extension of it. *)
Lemma lookup_path_app_l (p : list string * string) (D E : list entry) (k : kind) :
  lookup_path p D = Some k → lookup_path p (D ++ E) = Some k.
Proof.
  induction D as [|e D IH]; [done|].
  cbn [app lookup_path]. by case_bool_decide.
Qed.

(** The verifier's loop over the archive of a folder, with any tail behind
    the records, when every record is found. *)
Lemma check_loop_archive (recs : list (string * list byte)) (tail : list byte)
    (D : list entry) :
  Forall valid_record recs →
  Forall (λ r, lookup_path ([], r.1) D = Some (Regular r.2 true) ∧ x00 ∈ r.2) recs →
  check_loop (S (length (archive_bytes recs ++ tail)))
    (ifstream_of (archive_bytes recs ++ tail)) D []
  = check_loop (S (length (archive_bytes recs ++ tail) - length recs))
      (good_stream true tail) D (map header_of recs).
Proof.
  intros Hvalid Hfound.
  pose proof (length_encode_ge recs) as Hge.
  assert (length recs ≤ length (archive_bytes recs ++ tail)) as Hle
    by (rewrite length_app; lia).
  replace (S (length (archive_bytes recs ++ tail)))
    with (length recs + S (length (archive_bytes recs ++ tail) - length recs)) at 1
    by lia.
  by rewrite ifstream_of_good, check_loop_encode by done.
Qed.

(** An empty name ends the loop, whatever follows the zero byte. *)
Lemma check_loop_empty_name (fuel : nat) (o : bool) (garbage : list byte)
    (D : list entry) (files : list FileInfo) :
  check_loop (S fuel) (good_stream o (x00 :: garbage)) D files = Ret (Some files).
Proof. done. Qed.

End verifier_changes.

(** X15: the verifier does not notice bytes appended to an archive behind a
    zero byte: for a flat folder whose files each hold a zero byte, the
    archive of the folder followed by a zero byte and any further bytes is
    still found equivalent, so [archiveFiles] leaves such a file as it is. *)
Theorem checkArchive_ignores_tail (D : list entry) (A : afile) (garbage : list byte) :
  distinct_paths D → all_readable D → flat D →
  Forall valid_record (records D) →
  Forall (λ r, x00 ∈ r.2) (records D) →
  (Z.of_nat (length (records D)) ≤ INT_MAX)%Z →
  a_content A = Some (archive_bytes (records D) ++ x00 :: garbage) →
  a_readable A = true →
  checkArchive A D = Ret true
  ∧ archiveFiles D A = Ret (A, [Cout msg_skip]).
Proof.
  intros Hnd Hread Hflat Hvalid Hnul Hcount Hc Hr.
  assert (Hcheck : checkArchive A D = Ret true).
  { unfold checkArchive, open_archive. rewrite Hc, Hr.
    cbn [ifstream_of in_open in_rest negb].
    change {| in_open := true; in_rest := ?b; in_eofbit := false; in_failbit := false |}
      with (ifstream_of b).
    rewrite check_loop_archive; [|done|by apply flat_records_found].
    rewrite check_loop_empty_name.
    rewrite length_records in Hcount.
    rewrite count_files_spec by lia.
    rewrite length_map, length_records, to_int_small by lia.
    rewrite Z.add_0_l.
    by rewrite bool_decide_eq_false_2 by (by intros H; apply H). }
  split; [exact Hcheck|]. unfold archiveFiles. by rewrite Hcheck.
Qed.

Lemma checkArchive_ignores_tail_witness :
  checkArchive (archive_of (archive_bytes (records bin_before) ++ x00 :: bytes_of "tail"))
               bin_before = Ret true
  ∧ archiveFiles bin_before
      (archive_of (archive_bytes (records bin_before) ++ x00 :: bytes_of "tail"))
    = Ret (archive_of (archive_bytes (records bin_before) ++ x00 :: bytes_of "tail"),
           [Cout msg_skip]).
Proof.
  apply (checkArchive_ignores_tail bin_before
           (archive_of (archive_bytes (records bin_before) ++ x00 :: bytes_of "tail"))
           (bytes_of "tail"));
    by_evaluation.
Defined.

(** X16: a regular file added anywhere in or below a flat folder is
    noticed: the archive made of the folder before is found not equivalent
    to the folder with the new file, because the recursive count of regular
    files no longer equals the number of records. *)
Theorem checkArchive_detects_added_file (D : list entry) (A : afile) (e : entry) :
  distinct_paths D → all_readable D → flat D →
  Forall valid_record (records D) →
  Forall (λ r, x00 ∈ r.2) (records D) →
  (Z.of_nat (length (records D)) < INT_MAX)%Z →
  a_content A = Some (archive_bytes (records D)) →
  a_readable A = true →
  is_regular_file e = true →
  checkArchive A (D ++ [e]) = Ret false.
Proof.
  intros Hnd Hread Hflat Hvalid Hnul Hcount Hc Hr He.
  unfold checkArchive, open_archive. rewrite Hc, Hr.
  cbn [ifstream_of in_open in_rest negb].
  change {| in_open := true; in_rest := ?b; in_eofbit := false; in_failbit := false |}
    with (ifstream_of b).
  pose proof (check_loop_archive (records D) [] (D ++ [e]) Hvalid) as Hloop.
  rewrite app_nil_r in Hloop. rewrite Hloop, check_loop_end.
  - assert (length (filter (λ e, is_regular_file e = true) (D ++ [e]))
            = S (length (records D))) as Hlen.
    { rewrite filter_app, length_app, length_records.
      rewrite filter_cons, decide_True by done. cbn. lia. }
    rewrite count_files_spec by (rewrite Hlen; lia).
    rewrite Hlen, length_map, to_int_small by lia.
    rewrite bool_decide_eq_true_2; [done|lia].
  - eapply Forall_impl; [by apply flat_records_found|].
    intros r [Hlook Hin]. split; [|done]. by apply lookup_path_app_l.
Qed.

Lemma checkArchive_detects_added_file_witness :
  checkArchive (archive_of (archive_bytes (records bin_before)))
               (bin_before ++ [plain_file ["sub"%string] "new.txt" (bytes_of "n")])
  = Ret false.
Proof.
  apply (checkArchive_detects_added_file bin_before
           (archive_of (archive_bytes (records bin_before)))
           (plain_file ["sub"%string] "new.txt" (bytes_of "n")));
    by_evaluation.
Defined.

(** ** The command line *)

Section main_lemmas.

Lemma set_archive_same (W : world) (p : string) (A : afile) :
  w_archive (set_archive W p A) p = A.
Proof. cbn. by rewrite String.eqb_refl. Qed.

Lemma set_target_same (W : world) (p : string) (T : target) :
  w_target (set_target W p T) p = T.
Proof. cbn. by rewrite String.eqb_refl. Qed.

(** Writing back what was there changes nothing. *)
Lemma set_target_id (W : world) (p q : string) :
  w_target (set_target W p (w_target W p)) q = w_target W q.
Proof.
  cbn. destruct (String.eqb q p) eqn:E; [|done].
  by apply String.eqb_eq in E as ->.
Qed.

Lemma set_archive_id (W : world) (p q : string) :
  w_archive (set_archive W p (w_archive W p)) q = w_archive W q.
Proof.
  cbn. destruct (String.eqb q p) eqn:E; [|done].
  by apply String.eqb_eq in E as ->.
Qed.

End main_lemmas.

(** X17: [main] returns 1 exactly when fewer than three arguments follow the
    program name or the mode is neither [-a] nor [-u], and then nothing was
    read or written; in every other run that returns it returns 0. *)
Theorem main_exit_code (junk : nat → byte) (W W' : world) (argv : list string)
    (log : list event) (code : Z) :
  main junk W argv = Ret (W', log, code) →
  (code = 1%Z ∧ W' = W
   ∧ (length argv < 4
      ∨ (nth 1 argv EmptyString ≠ "-a"%string ∧ nth 1 argv EmptyString ≠ "-u"%string)))
  ∨ (code = 0%Z ∧ 4 ≤ length argv
     ∧ (nth 1 argv EmptyString = "-a"%string ∨ nth 1 argv EmptyString = "-u"%string)).
Proof.
  intros Hrun. unfold main in Hrun.
  destruct (Nat.ltb_spec (length argv) 4) as [Hlt|Hge].
  - destruct argv as [|argv0 rest]; [done|].
    injection Hrun as <- _ <-. left. by intuition.
  - destruct (String.eqb_spec (nth 1 argv EmptyString) "-a") as [Ha|Hna].
    + destruct (archiveFiles _ _) as [[A' l]| | |]; try done.
      injection Hrun as _ _ <-. right. by intuition.
    + destruct (String.eqb_spec (nth 1 argv EmptyString) "-u") as [Hu|Hnu].
      * destruct (unarchiveFiles _ _ _) as [[T' l]| | |]; try done.
        injection Hrun as _ _ <-. right. by intuition.
      * injection Hrun as <- _ <-. left. by intuition.
Qed.

Lemma main_exit_code_witness :
  (1%Z = 1%Z ∧ demo_world = demo_world
   ∧ (length ["archivator"%string; "-x"%string; "src"%string; "out.arc"%string] < 4
      ∨ (nth 1 ["archivator"%string; "-x"%string; "src"%string; "out.arc"%string] EmptyString
           ≠ "-a"%string
         ∧ nth 1 ["archivator"%string; "-x"%string; "src"%string; "out.arc"%string] EmptyString
           ≠ "-u"%string)))
  ∨ (1%Z = 0%Z
     ∧ 4 ≤ length ["archivator"%string; "-x"%string; "src"%string; "out.arc"%string]
     ∧ (nth 1 ["archivator"%string; "-x"%string; "src"%string; "out.arc"%string] EmptyString
          = "-a"%string
        ∨ nth 1 ["archivator"%string; "-x"%string; "src"%string; "out.arc"%string] EmptyString
          = "-u"%string)).
Proof.
  apply (main_exit_code stars demo_world demo_world
           ["archivator"%string; "-x"%string; "src"%string; "out.arc"%string]
           [Cerr msg_invalid_mode] 1%Z).
  reflexivity.
Defined.

(** X18: [main] returns 0 although the operation could not open its
    archive: with an archive path that neither exists nor can be created,
    [-u] prints that the archive cannot be read and [-a] that it cannot be
    written, both return 0, and no archive and no target folder has
    changed.  Arguments behind the third are ignored. *)
Theorem main_returns_0_without_archive (junk : nat → byte) (W : world)
    (prog arc other : string) (more : list string) :
  a_content (w_archive W arc) = None →
  a_writable (w_archive W arc) = false →
  (∃ W' : world,
     main junk W (prog :: "-u"%string :: arc :: other :: more)
     = Ret (W', [Cerr msg_no_read], 0%Z)
     ∧ ∀ q, w_target W' q = w_target W q ∧ w_archive W' q = w_archive W q)
  ∧ (∃ W' : world,
       main junk W (prog :: "-a"%string :: other :: arc :: more)
       = Ret (W', [Cerr msg_no_write], 0%Z)
       ∧ ∀ q, w_target W' q = w_target W q ∧ w_archive W' q = w_archive W q).
Proof.
  intros Hmissing Hro. split.
  - exists (set_target W other (w_target W other)). split.
    + unfold main. cbn [length Nat.ltb Nat.leb nth String.eqb Ascii.eqb Bool.eqb].
      unfold unarchiveFiles, open_archive. by rewrite Hmissing.
    + intros q. split; [apply set_target_id|done].
  - exists (set_archive W arc (w_archive W arc)). split.
    + unfold main. cbn [length Nat.ltb Nat.leb nth String.eqb Ascii.eqb Bool.eqb].
      unfold archiveFiles, checkArchive, open_archive. by rewrite Hmissing, Hro.
    + intros q. split; [done|apply set_archive_id].
Qed.

Lemma main_returns_0_without_archive_witness :
  (∃ W' : world,
     main stars (set_archive demo_world "/nowhere/x.arc"
                   {| a_content := None; a_readable := false; a_writable := false |})
       ["archivator"%string; "-u"%string; "/nowhere/x.arc"%string; "out"%string]
     = Ret (W', [Cerr msg_no_read], 0%Z)
     ∧ ∀ q, w_target W' q
            = w_target (set_archive demo_world "/nowhere/x.arc"
                          {| a_content := None; a_readable := false; a_writable := false |}) q
          ∧ w_archive W' q
            = w_archive (set_archive demo_world "/nowhere/x.arc"
                           {| a_content := None; a_readable := false; a_writable := false |}) q)
  ∧ (∃ W' : world,
       main stars (set_archive demo_world "/nowhere/x.arc"
                     {| a_content := None; a_readable := false; a_writable := false |})
         ["archivator"%string; "-a"%string; "out"%string; "/nowhere/x.arc"%string]
       = Ret (W', [Cerr msg_no_write], 0%Z)
       ∧ ∀ q, w_target W' q
              = w_target (set_archive demo_world "/nowhere/x.arc"
                            {| a_content := None; a_readable := false; a_writable := false |}) q
            ∧ w_archive W' q
              = w_archive (set_archive demo_world "/nowhere/x.arc"
                             {| a_content := None; a_readable := false; a_writable := false |}) q).
Proof.
  apply (main_returns_0_without_archive stars
           (set_archive demo_world "/nowhere/x.arc"
              {| a_content := None; a_readable := false; a_writable := false |})
           "archivator" "/nowhere/x.arc" "out" []);
    reflexivity.
Defined.

(** X19: the two modes compose on the command line.  For a folder whose
    regular files have pairwise distinct base names, can all be opened and
    of which only the last scanned may be empty, [-a folder archive] writes
    the archive and returns 0, and [-u archive out] run next, into an empty
    folder in which every file can be created, returns 0 and leaves in
    [out] exactly the files of the folder, under their base names. *)
Theorem main_archive_then_unarchive (junk : nat → byte) (W : world)
    (prog src arc out : string) (more1 more2 : list string) :
  distinct_paths (w_folder W src) → all_readable (w_folder W src) →
  Forall valid_record (records (w_folder W src)) →
  no_early_empty (records (w_folder W src)) →
  NoDup (map fst (records (w_folder W src))) →
  checkArchive (w_archive W arc) (w_folder W src) = Ret false →
  a_writable (w_archive W arc) = true →
  a_readable (w_archive W arc) = true →
  t_files (w_target W out) = ∅ →
  (∀ name, t_can_create (w_target W out) name = true) →
  ∃ W1 W2 : world,
    main junk W (prog :: "-a"%string :: src :: arc :: more1)
    = Ret (W1, [OpenForWrite; Cout msg_archived], 0%Z)
    ∧ main junk W1 (prog :: "-u"%string :: arc :: out :: more2)
      = Ret (W2, [Cout msg_unarchived], 0%Z)
    ∧ ∀ (name : string) (data : list byte),
        t_files (w_target W2 out) !! name = Some data
        ↔ (name, data) ∈ records (w_folder W src).
Proof.
  intros Hnd Hread Hvalid Hne Hnames Hcheck Hw Hr Hempty Hcreate.
  destruct (archive_then_unarchive junk (w_folder W src) (w_archive W arc)
              (w_target W out)) as [Harch Hun]; try done.
  { apply Forall_forall. intros r _. apply Hcreate. }
  eexists _, _. split; [|split].
  - unfold main. cbn [length Nat.ltb Nat.leb nth String.eqb Ascii.eqb Bool.eqb].
    by rewrite Harch.
  - unfold main. cbn [length Nat.ltb Nat.leb nth String.eqb Ascii.eqb Bool.eqb].
    rewrite set_archive_same. cbn [w_target set_archive]. by rewrite Hun.
  - intros name data. rewrite set_target_same. cbn [with_files t_files].
    rewrite Hempty. by apply write_all_distinct.
Qed.

Lemma main_archive_then_unarchive_witness :
  ∃ W1 W2 : world,
    main stars demo_world ["archivator"%string; "-a"%string; "src"%string; "x.arc"%string]
    = Ret (W1, [OpenForWrite; Cout msg_archived], 0%Z)
    ∧ main stars W1 ["archivator"%string; "-u"%string; "x.arc"%string; "out"%string]
      = Ret (W2, [Cout msg_unarchived], 0%Z)
    ∧ ∀ (name : string) (data : list byte),
        t_files (w_target W2 "out") !! name = Some data
        ↔ (name, data) ∈ records (w_folder demo_world "src").
Proof.
  apply (main_archive_then_unarchive stars demo_world "archivator" "src" "x.arc" "out" [] []);
    by_evaluation.
Defined.
